(** * GlobalAttention.py: a shallow embedding and its verified properties

    The module under study is [src/theCode/GlobalAttention.py]: the function
    [func_attention] and the layer [GlobalAttentionGeneral] of an AttnGAN
    generator.  Tensors are modelled as a shape together with a flat,
    row-major buffer, which is what a contiguous torch tensor is; strides
    are not modelled.

    Numbers are exact reals, and in the masked branch the reals extended
    with the IEEE special values: the rounding, overflow and underflow of
    float32 are not modelled.  The theorems below therefore state what
    does not depend on them: shapes, the axis an operation runs along and
    the entries it combines, which operation raises and what has been
    printed by then, where [-inf] and NaN are written, and what the
    instance holds after a call.  Lemmas on exact values (sums equal to
    1, positive weights) serve the proofs, and the examples that evaluate
    the code, which are taken on tensors of zeros, where float32 computes
    the same values. *)

From Stdlib Require Import String.
From Stdlib Require Import List Arith PeanoNat Lia Bool Reals Lra.
Import ListNotations.

Set Implicit Arguments.

(** ** Scalars *)

(** Reals extended with the IEEE special values.  Signed zeros are not
    distinguished. *)
Inductive ext : Type :=
| Fin (r : R)
| PInf
| NInf
| NaN.

Definition ext_add (a b : ext) : ext :=
  match a, b with
  | NaN, _ | _, NaN => NaN
  | PInf, NInf | NInf, PInf => NaN
  | PInf, _ | _, PInf => PInf
  | NInf, _ | _, NInf => NInf
  | Fin x, Fin y => Fin (x + y)
  end.

(** The infinity of the sign of [r], or NaN when [r] is zero. *)
Definition inf_of_sign (pos : bool) (r : R) : ext :=
  match total_order_T r 0 with
  | inleft (left _) => if pos then NInf else PInf
  | inleft (right _) => NaN
  | inright _ => if pos then PInf else NInf
  end.

Definition ext_mul (a b : ext) : ext :=
  match a, b with
  | NaN, _ | _, NaN => NaN
  | Fin x, Fin y => Fin (x * y)
  | PInf, Fin y | Fin y, PInf => inf_of_sign true y
  | NInf, Fin y | Fin y, NInf => inf_of_sign false y
  | PInf, PInf | NInf, NInf => PInf
  | PInf, NInf | NInf, PInf => NInf
  end.

Definition ext_div (a b : ext) : ext :=
  match a, b with
  | NaN, _ | _, NaN => NaN
  | Fin x, Fin y =>
      if Req_dec_T y 0 then inf_of_sign true x else Fin (x / y)
  | Fin _, (PInf | NInf) => Fin 0
  | PInf, Fin y => if Rlt_dec y 0 then NInf else PInf
  | NInf, Fin y => if Rlt_dec y 0 then PInf else NInf
  | (PInf | NInf), (PInf | NInf) => NaN
  end.

Definition ext_exp (a : ext) : ext :=
  match a with
  | Fin x => Fin (exp x)
  | PInf => PInf
  | NInf => Fin 0
  | NaN => NaN
  end.

(** The arithmetic the tensor kernels need, so that one definition of
    [bmm] and of the softmax serves both number types. *)
Class Scalar (A : Type) : Type := {
  szero : A;
  sadd : A -> A -> A;
  smul : A -> A -> A;
  sdiv : A -> A -> A;
  sexp : A -> A
}.

#[global] Instance R_scalar : Scalar R :=
  {| szero := 0%R; sadd := Rplus; smul := Rmult; sdiv := Rdiv; sexp := exp |}.

#[global] Instance ext_scalar : Scalar ext :=
  {| szero := Fin 0; sadd := ext_add; smul := ext_mul; sdiv := ext_div;
     sexp := ext_exp |}.

(** ** Errors *)

(** torch raises [IndexError] for a dimension out of range and
    [RuntimeError] for shapes that do not fit; [op] names the operation
    that raised. *)
Inductive error : Type :=
| IndexError
| RuntimeError (op : string).

Inductive result (A : Type) : Type :=
| Ok (a : A)
| Raise (e : error).

Arguments Ok {A} a.
Arguments Raise {A} e.

Definition rbind {A B} (m : result A) (k : A -> result B) : result B :=
  match m with
  | Ok a => k a
  | Raise e => Raise e
  end.

Declare Scope result_scope.
Delimit Scope result_scope with result.
Notation "x <- m ;; k" := (rbind m (fun x => k))
  (at level 61, m at next level, right associativity) : result_scope.

(** ** Tensors *)

Record tensor (A : Type) : Type := mkT { shape : list nat; data : list A }.

(** The number of elements of a tensor of shape [s]. *)
Fixpoint numel (s : list nat) : nat :=
  match s with
  | [] => 1
  | d :: s' => d * numel s'
  end.

(** [tab n f] is the buffer [f 0; ...; f (n-1)]. *)
Definition tab {A} (n : nat) (f : nat -> A) : list A := map f (seq 0 n).

Definition ssum {A} `{Scalar A} (l : list A) : A := fold_right sadd szero l.

Definition tmap {A B} (f : A -> B) (t : tensor A) : tensor B :=
  mkT (shape t) (map f (data t)).

(** Index arithmetic for the operations that work at any rank. *)
Fixpoint unravel (s : list nat) (i : nat) : list nat :=
  match s with
  | [] => []
  | _ :: s' => i / numel s' :: unravel s' (i mod numel s')
  end.

Fixpoint ravel (s idx : list nat) : nat :=
  match s, idx with
  | _ :: s', i :: idx' => i * numel s' + ravel s' idx'
  | _, _ => 0
  end.

Fixpoint zip_with {X Y Z} (f : X -> Y -> Z) (l : list X) (m : list Y) : list Z :=
  match l, m with
  | x :: l', y :: m' => f x y :: zip_with f l' m'
  | _, _ => []
  end.

(** A shape brought to rank [n] by 1s in front, as broadcasting and
    [repeat] do. *)
Definition pad_shape (n : nat) (s : list nat) : list nat :=
  List.repeat 1 (n - length s) ++ s.

(** The flat offset, in a buffer of shape [s], of the element that a
    position of a larger tensor reads: every coordinate is taken modulo
    the extent (a coordinate on an extent of 1 is 0). *)
Definition wrap_index (s : list nat) (coords : list nat) : nat :=
  ravel s (zip_with Nat.modulo coords s).

(** [t.size(k)] *)
Definition size {A} (t : tensor A) (k : nat) : result nat :=
  match nth_error (shape t) k with
  | Some n => Ok n
  | None => Raise IndexError
  end.

(** An argument of [view]: an extent, or -1. *)
Inductive dim : Type :=
| Dim (n : nat)
| Infer.

Definition is_infer (d : dim) : bool :=
  match d with Infer => true | Dim _ => false end.

Definition known_numel (ds : list dim) : nat :=
  fold_right (fun d acc => match d with Dim n => n * acc | Infer => acc end) 1 ds.

Definition resolve (inferred : nat) (d : dim) : nat :=
  match d with Dim n => n | Infer => inferred end.

(** [t.view(ds)] on a contiguous tensor: the buffer is kept and the shape
    replaced.  With a -1 the other extents must have a non-zero product
    dividing the number of elements. *)
Definition view {A} (t : tensor A) (ds : list dim) : result (tensor A) :=
  let n := numel (shape t) in
  let k := known_numel ds in
  match length (filter is_infer ds) with
  | 0 => if n =? k then Ok (mkT (map (resolve 0) ds) (data t))
         else Raise (RuntimeError "view")
  | 1 => if (0 <? k) && (n mod k =? 0)
         then Ok (mkT (map (resolve (n / k)) ds) (data t))
         else Raise (RuntimeError "view")
  | _ => Raise (RuntimeError "view")
  end.

(** [t.unsqueeze(k)] *)
Definition unsqueeze {A} (k : nat) (t : tensor A) : result (tensor A) :=
  if k <=? length (shape t)
  then Ok (mkT (firstn k (shape t) ++ 1 :: skipn k (shape t)) (data t))
  else Raise IndexError.

(** [t.squeeze(k)]: drops dimension [k] when its extent is 1. *)
Definition squeeze {A} (k : nat) (t : tensor A) : result (tensor A) :=
  match nth_error (shape t) k with
  | Some 1 => Ok (mkT (firstn k (shape t) ++ skipn (S k) (shape t)) (data t))
  | Some _ => Ok t
  | None => Raise IndexError
  end.

(** [t.repeat(reps)]: the tensor is tiled [reps] times along each
    dimension, so position [i] of the result reads position
    [i mod extent] of [t] in every dimension. *)
Definition trepeat {A} (d : A) (t : tensor A) (reps : list nat) : result (tensor A) :=
  if length reps <? length (shape t) then Raise (RuntimeError "repeat")
  else
    let s := pad_shape (length reps) (shape t) in
    let os := zip_with Nat.mul reps s in
    Ok (mkT os (tab (numel os)
                  (fun i => nth (wrap_index s (unravel os i)) (data t) d))).

(** The shape two operands broadcast to. *)
Fixpoint broadcast_aligned (s1 s2 : list nat) : option (list nat) :=
  match s1, s2 with
  | [], [] => Some []
  | a :: s1', b :: s2' =>
      match broadcast_aligned s1' s2' with
      | Some r =>
          if a =? b then Some (a :: r)
          else if a =? 1 then Some (b :: r)
          else if b =? 1 then Some (a :: r)
          else None
      | None => None
      end
  | _, _ => None
  end.

Definition broadcast_shapes (s1 s2 : list nat) : option (list nat) :=
  let n := Nat.max (length s1) (length s2) in
  broadcast_aligned (pad_shape n s1) (pad_shape n s2).

Section Numeric.
Context {A : Type} `{Scalar A}.

(** [torch.transpose(t, 1, 2).contiguous()].  Every call in the module
    is on the rank-3 result of a [view] or of a [bmm]. *)
Definition transpose12 (t : tensor A) : result (tensor A) :=
  match shape t with
  | [b; m; n] =>
      Ok (mkT [b; n; m]
            (tab (b * n * m)
               (fun i =>
                  let bi := i / (n * m) in
                  let r := (i / m) mod n in
                  let c := i mod m in
                  nth (bi * m * n + c * n + r) (data t) szero)))
  | _ => Raise IndexError
  end.

(** [torch.bmm(a, b)]: a batch of matrix products. *)
Definition bmm (a b : tensor A) : result (tensor A) :=
  match shape a, shape b with
  | [ba; n; m], [bb; m'; p] =>
      if (ba =? bb) && (m =? m')
      then Ok (mkT [ba; n; p]
                 (tab (ba * n * p)
                    (fun i =>
                       let bi := i / (n * p) in
                       let r := (i / p) mod n in
                       let c := i mod p in
                       ssum (tab m (fun k =>
                               smul (nth (bi * n * m + r * m + k) (data a) szero)
                                    (nth (bi * m * p + k * p + c) (data b) szero))))))
      else Raise (RuntimeError "bmm")
  | _, _ => Raise (RuntimeError "bmm")
  end.

(** [t * g] for a Python number [g]. *)
Definition scale (t : tensor A) (g : A) : tensor A :=
  tmap (fun x => smul x g) t.

(** Softmax along dimension [d]: each element is [exp x] over the sum
    of [exp] along [d], the other coordinates fixed. *)
Definition softmax_dim (d : nat) (t : tensor A) : result (tensor A) :=
  if d <? length (shape t) then
    let n := nth d (shape t) 0 in
    let inner := numel (skipn (S d) (shape t)) in
    Ok (mkT (shape t)
          (tab (numel (shape t))
             (fun i =>
                let o := i / (n * inner) in
                let k := i mod inner in
                sdiv (sexp (nth i (data t) szero))
                     (ssum (tab n (fun j =>
                              sexp (nth (o * n * inner + j * inner + k)
                                        (data t) szero)))))))
  else Raise IndexError.

(** [torch.mul(a, b)] with broadcasting. *)
Definition tmul (a b : tensor A) : result (tensor A) :=
  match broadcast_shapes (shape a) (shape b) with
  | Some os =>
      let sa := pad_shape (length os) (shape a) in
      let sb := pad_shape (length os) (shape b) in
      Ok (mkT os (tab (numel os)
                    (fun i =>
                       let c := unravel os i in
                       smul (nth (wrap_index sa c) (data a) szero)
                            (nth (wrap_index sb c) (data b) szero))))
  | None => Raise (RuntimeError "mul")
  end.

(** [t.masked_fill_(mask, v)]: the mask must broadcast to the shape of
    [t], which is kept. *)
Definition masked_fill (t : tensor A) (mask : tensor bool) (v : A)
  : result (tensor A) :=
  match broadcast_shapes (shape t) (shape mask) with
  | Some os =>
      if list_eq_dec Nat.eq_dec os (shape t) then
        let sm := pad_shape (length os) (shape mask) in
        Ok (mkT (shape t)
              (tab (numel (shape t))
                 (fun i =>
                    if nth (wrap_index sm (unravel os i)) (data mask) false
                    then v else nth i (data t) szero)))
      else Raise (RuntimeError "masked_fill_")
  | None => Raise (RuntimeError "masked_fill_")
  end.
End Numeric.

(** [nn.Softmax(dim)].  Built without a dimension, as everywhere in this
    module, it picks one from the rank of its input: 0 for rank 0, 1 and
    3, and 1 otherwise. *)
Record Softmax : Type := { sm_dim : option nat }.

Definition legacy_softmax_dim (ndim : nat) : nat :=
  match ndim with
  | 0 | 1 | 3 => 0
  | _ => 1
  end.

Definition Softmax_forward {A} `{Scalar A} (m : Softmax) (t : tensor A)
  : result (tensor A) :=
  match sm_dim m with
  | Some d => softmax_dim d t
  | None => softmax_dim (legacy_softmax_dim (length (shape t))) t
  end.

(** [nn.Conv2d(in, out, kernel_size=1, stride=1, padding=0, bias=False)]:
    the weight [out x in x 1 x 1] is held row-major. *)
Record Conv2d : Type := {
  in_channels : nat;
  out_channels : nat;
  conv_weight : list R
}.

Definition Conv2d_forward (m : Conv2d) (x : tensor R) : result (tensor R) :=
  match shape x with
  | [n; c; h; w] =>
      if (c =? in_channels m) && (0 <? h) && (0 <? w)
      then
        let oc := out_channels m in
        Ok (mkT [n; oc; h; w]
              (tab (n * oc * h * w)
                 (fun i =>
                    let b := i / (oc * h * w) in
                    let o := (i / (h * w)) mod oc in
                    let p := i mod (h * w) in
                    ssum (tab c (fun ci =>
                            (nth (o * c + ci) (conv_weight m) 0
                             * nth (b * c * h * w + ci * h * w + p) (data x) 0)%R)))))
      else Raise (RuntimeError "conv2d")
  | _ => Raise (RuntimeError "conv2d")
  end.

(** [nn.Linear(in, out)]: weight [out x in] and bias [out]. *)
Record Linear : Type := {
  in_features : nat;
  out_features : nat;
  lin_weight : list R;
  lin_bias : list R
}.

Definition Linear_forward (m : Linear) (x : tensor R) : result (tensor R) :=
  match rev (shape x) with
  | last :: _ =>
      if last =? in_features m
      then
        let rows := numel (removelast (shape x)) in
        let o := out_features m in
        Ok (mkT (removelast (shape x) ++ [o])
              (tab (rows * o)
                 (fun i =>
                    let r := i / o in
                    let j := i mod o in
                    (ssum (tab last (fun k =>
                             (nth (r * last + k) (data x) 0
                              * nth (j * last + k) (lin_weight m) 0)%R))
                     + nth j (lin_bias m) 0)%R)))
      else Raise (RuntimeError "linear")
  | [] => Raise (RuntimeError "linear")
  end.

(** ** GlobalAttention.py *)

(** [conv1x1(in_planes, out_planes)]; the initial weight is drawn at
    random by torch and is a parameter here. *)
Definition conv1x1 (in_planes out_planes : nat) (weight : list R) : Conv2d :=
  {| in_channels := in_planes; out_channels := out_planes;
     conv_weight := weight |}.

(** [nn.Softmax()] *)
Definition nn_Softmax : Softmax := {| sm_dim := None |}.

(** The locals of [func_attention] that later lines read. *)
Record fa_locals : Type := {
  fa_batch_size : nat;
  fa_queryL : nat;
  fa_ih : nat;
  fa_iw : nat;
  fa_sourceL : nat;
  fa_context : tensor R;
  fa_attn : tensor R
}.

Local Open Scope result_scope.

(** [func_attention], lines 37 to 51: up to the softmax of Eq. (8). *)
Definition func_attention_eq8 (query context : tensor R) : result fa_locals :=
  batch_size <- size query 0 ;;
  queryL <- size query 2 ;;
  ih <- size context 2 ;;
  iw <- size context 3 ;;
  let sourceL := ih * iw in
  context <- view context [Dim batch_size; Infer; Dim sourceL] ;;
  contextT <- transpose12 context ;;
  attn <- bmm contextT query ;;
  attn <- view attn [Dim (batch_size * sourceL); Dim queryL] ;;
  attn <- Softmax_forward nn_Softmax attn ;;
  Ok {| fa_batch_size := batch_size; fa_queryL := queryL; fa_ih := ih;
        fa_iw := iw; fa_sourceL := sourceL; fa_context := context;
        fa_attn := attn |}.

(** [func_attention], lines 59 and 60: the scaling by [gamma1] and the
    softmax of Eq. (9). *)
Definition sharpen (attn : tensor R) (gamma1 : R) : result (tensor R) :=
  let attn := scale attn gamma1 in
  Softmax_forward nn_Softmax attn.

(** [func_attention], lines 37 to 60: up to the softmax of Eq. (9). *)
Definition func_attention_eq9 (query context : tensor R) (gamma1 : R)
  : result fa_locals :=
  l <- func_attention_eq8 query context ;;
  let batch_size := fa_batch_size l in
  let queryL := fa_queryL l in
  let sourceL := fa_sourceL l in
  attn <- view (fa_attn l) [Dim batch_size; Dim sourceL; Dim queryL] ;;
  attn <- transpose12 attn ;;
  attn <- view attn [Dim (batch_size * queryL); Dim sourceL] ;;
  attn <- sharpen attn gamma1 ;;
  Ok {| fa_batch_size := batch_size; fa_queryL := queryL; fa_ih := fa_ih l;
        fa_iw := fa_iw l; fa_sourceL := sourceL; fa_context := fa_context l;
        fa_attn := attn |}.

(** [func_attention(query, context, gamma1)]: the pair
    [(weightedContext, attn.view(batch_size, -1, ih, iw))]. *)
Definition func_attention (query context : tensor R) (gamma1 : R)
  : result (tensor R * tensor R) :=
  l <- func_attention_eq9 query context gamma1 ;;
  let batch_size := fa_batch_size l in
  attn <- view (fa_attn l) [Dim batch_size; Dim (fa_queryL l); Dim (fa_sourceL l)] ;;
  attnT <- transpose12 attn ;;
  weightedContext <- bmm (fa_context l) attnT ;;
  attn_map <- view attn [Dim batch_size; Infer; Dim (fa_ih l); Dim (fa_iw l)] ;;
  Ok (weightedContext, attn_map).

(** The class [GlobalAttentionGeneral]: its attributes. *)
Record GlobalAttentionGeneral : Type := {
  conv_context : Conv2d;
  sm : Softmax;
  mask : option (tensor bool);
  conv_sentence_vis : Conv2d;
  linear : Linear
}.

(** [__init__(idf, cdf)].  The initial values of the learned weights are
    parameters. *)
Definition init (idf cdf : nat) (w_context w_vis w_linear b_linear : list R)
  : GlobalAttentionGeneral :=
  {| conv_context := conv1x1 cdf idf w_context;
     sm := nn_Softmax;
     mask := None;
     conv_sentence_vis := conv1x1 idf idf w_vis;
     linear := {| in_features := 100; out_features := idf;
                  lin_weight := w_linear; lin_bias := b_linear |} |}.

(** A line written by [print]: a label followed by a [torch.Size], or
    plain text. *)
Inductive line : Type :=
| SizeLine (label : string) (sz : list nat)
| TextLine (text : string).

(** What a method call can read and write: the instance and standard
    output. *)
Record world : Type := { this : GlobalAttentionGeneral; stdout : list line }.

Definition M (A : Type) : Type := world -> world * result A.

Definition mret {A} (a : A) : M A := fun w => (w, Ok a).

Definition mbind {A B} (m : M A) (k : A -> M B) : M B :=
  fun w =>
    match m w with
    | (w', Ok a) => k a w'
    | (w', Raise e) => (w', Raise e)
    end.

Definition lift {A} (r : result A) : M A := fun w => (w, r).

Definition get_self : M GlobalAttentionGeneral := fun w => (w, Ok (this w)).

Definition print (l : line) : M unit :=
  fun w => ({| this := this w; stdout := stdout w ++ [l] |}, Ok tt).

Declare Scope method_scope.
Delimit Scope method_scope with method.
Notation "x <~ m ;; k" := (mbind m (fun x => k))
  (at level 61, m at next level, right associativity) : method_scope.
Notation "m ;;; k" := (mbind m (fun _ => k))
  (at level 61, right associativity) : method_scope.

(** [applyMask(mask)]; [None] is Python's [None]. *)
Definition applyMask (m : option (tensor bool)) : M unit :=
  fun w =>
    ({| this := {| conv_context := conv_context (this w);
                   sm := sm (this w);
                   mask := m;
                   conv_sentence_vis := conv_sentence_vis (this w);
                   linear := linear (this w) |};
        stdout := stdout w |}, Ok tt).

(** The locals of [forward] that later lines read. *)
Record fw_locals : Type := {
  fw_idf : nat;
  fw_ih : nat;
  fw_iw : nat;
  fw_queryL : nat;
  fw_batch_size : nat;
  fw_sourceL : nat;
  fw_sourceT : tensor R;
  fw_attn : tensor ext
}.

(** [forward], lines 93 to 116: the similarity of every query position
    to every word, masked when a mask is stored, through the softmax of
    Eq. (2).  The similarity is a tensor of reals; it is read as a tensor
    of [ext] from line 112 on, where [-inf] may be written into it. *)
Definition forward_eq2 (self : GlobalAttentionGeneral)
    (input context : tensor R) : result fw_locals :=
  idf <- size input 1 ;;
  ih <- size input 2 ;;
  iw <- size input 3 ;;
  let queryL := ih * iw in
  batch_size <- size context 0 ;;
  sourceL <- size context 2 ;;
  target <- view input [Dim batch_size; Infer; Dim queryL] ;;
  targetT <- transpose12 target ;;
  sourceT <- unsqueeze 3 context ;;
  sourceT <- Conv2d_forward (conv_context self) sourceT ;;
  sourceT <- squeeze 3 sourceT ;;
  attn <- bmm targetT sourceT ;;
  attn <- view attn [Dim (batch_size * queryL); Dim sourceL] ;;
  let attn := tmap Fin attn in
  attn <- match mask self with
          | Some self_mask =>
              mask <- trepeat false self_mask [queryL; 1] ;;
              masked_fill attn mask NInf
          | None => Ok attn
          end ;;
  attn <- Softmax_forward (sm self) attn ;;
  Ok {| fw_idf := idf; fw_ih := ih; fw_iw := iw; fw_queryL := queryL;
        fw_batch_size := batch_size; fw_sourceL := sourceL;
        fw_sourceT := sourceT; fw_attn := attn |}.

(** [forward], lines 93 to 127: the word branch, giving
    [weightedContext] and [word_attn].  The second [bmm] multiplies the
    projected context, read in [ext], by the attention. *)
Definition forward_words (self : GlobalAttentionGeneral)
    (input context : tensor R)
  : result (fw_locals * tensor ext * tensor ext) :=
  l <- forward_eq2 self input context ;;
  let batch_size := fw_batch_size l in
  attn <- view (fw_attn l) [Dim batch_size; Dim (fw_queryL l); Dim (fw_sourceL l)] ;;
  attn <- transpose12 attn ;;
  weightedContext <- bmm (tmap Fin (fw_sourceT l)) attn ;;
  weightedContext <- view weightedContext
                       [Dim batch_size; Infer; Dim (fw_ih l); Dim (fw_iw l)] ;;
  word_attn <- view attn [Dim batch_size; Infer; Dim (fw_ih l); Dim (fw_iw l)] ;;
  Ok (l, weightedContext, word_attn).

Local Close Scope result_scope.
Local Open Scope method_scope.

(** What [forward] returns:
    [(weightedContext, weightedSentence, word_attn, sent_att)]. *)
Record outputs : Type := {
  weightedContext : tensor ext;
  weightedSentence : tensor R;
  word_attn : tensor ext;
  sent_att : tensor R
}.

(** [forward(input, sentence, context)] *)
Definition forward (input sentence context : tensor R) : M outputs :=
  self <~ get_self ;;
  w <~ lift (forward_words self input context) ;;
  let '(l, weightedContext, word_attn) := w in
  let batch_size := fw_batch_size l in
  let idf := fw_idf l in
  let ih := fw_ih l in
  let iw := fw_iw l in
  sentence <~ lift (Linear_forward (linear self) sentence) ;;
  print (SizeLine "sentence         = self.linear(sentence) => " (shape sentence)) ;;;
  sentence <~ lift (view sentence [Dim batch_size; Dim idf; Dim 1; Dim 1]) ;;
  print (SizeLine "sentence         = sentence.view(batch_size, idf, 1, 1) => "
           (shape sentence)) ;;;
  sentence <~ lift (trepeat 0%R sentence [1; 1; ih; iw]) ;;
  print (SizeLine "sentence         = sentence.repeat(1, 1, ih, iw) => "
           (shape sentence)) ;;;
  sentence_vs <~ lift (tmul input sentence) ;;
  print (SizeLine "sentence_vs      = torch.mul(input, sentence) =>"
           (shape sentence_vs)) ;;;
  sentence_vs <~ lift (Conv2d_forward (conv_sentence_vis self) sentence_vs) ;;
  print (SizeLine "sentence_vs      = self.conv_sentence_vis(sentence_vs) =>"
           (shape sentence_vs)) ;;;
  sent_att <~ lift (Softmax_forward nn_Softmax sentence_vs) ;;
  print (SizeLine "sent_att         = nn.Softmax()(sentence_vs) => "
           (shape sent_att)) ;;;
  weightedSentence <~ lift (tmul sentence sent_att) ;;
  print (SizeLine "weightedSentence = torch.mul(sentence, sent_att) =>"
           (shape weightedSentence)) ;;;
  print (TextLine "-------THE END OF GLAttentionGeneral-------") ;;;
  mret {| weightedContext := weightedContext;
          weightedSentence := weightedSentence;
          word_attn := word_attn;
          sent_att := sent_att |}.

Local Close Scope method_scope.

(** The operations on an instance after its construction. *)
Inductive call : Type :=
| CallApplyMask (m : option (tensor bool))
| CallForward (input sentence context : tensor R).

(** One call: the world after it (the value returned is dropped). *)
Definition step (w : world) (c : call) : world :=
  match c with
  | CallApplyMask m => fst (applyMask m w)
  | CallForward input sentence context => fst (forward input sentence context w)
  end.

(** ** Reading tensors *)

(** The sum of the [n] entries of the buffer [d] at [base], [base +
    stride], ...: one line of a tensor along one of its axes. *)
Definition axis_sum (d : list R) (base stride n : nat) : R :=
  ssum (tab n (fun j => nth (base + j * stride) d 0%R)).

(** The entries of row [i] of a buffer of rows of [c] entries. *)
Definition row (d : list R) (c i : nat) : list R :=
  tab c (fun j => nth (i * c + j) d 0%R).

(** The [D] entries across the channels at batch element [b] and spatial
    position [p] of a buffer laid out as [B x D x HW]. *)
Definition channel_line (d : list R) (D HW b p : nat) : list R :=
  tab D (fun c => nth (b * D * HW + c * HW + p) d 0%R).

(** A tensor held as one row-major buffer of exactly its elements, which
    is what [is_contiguous()] says of a torch tensor.  Every tensor of
    this development is read that way; the hypothesis marks the calls of
    [view] (lines 42 and 99), which torch refuses on any other layout. *)
Definition contiguous {A} (t : tensor A) : Prop :=
  length (data t) = numel (shape t).

(** The attributes [forward] relies on, as [__init__(idf, cdf)] sets
    them. *)
Definition built (idf cdf : nat) (self : GlobalAttentionGeneral) : Prop :=
  in_channels (conv_context self) = cdf /\
  out_channels (conv_context self) = idf /\
  in_channels (conv_sentence_vis self) = idf /\
  out_channels (conv_sentence_vis self) = idf /\
  in_features (linear self) = 100 /\
  out_features (linear self) = idf /\
  sm self = nn_Softmax.

(** A tensor of zeros. *)
Definition zeros (s : list nat) : tensor R := mkT s (List.repeat 0%R (numel s)).

(** Along the middle axis of a buffer laid out as [outer x n x inner],
    every entry is positive and every line sums to 1. *)
Definition stochastic (d : list R) (outer n inner : nat) : Prop :=
  forall o k, o < outer -> k < inner ->
    (forall j, j < n -> (0 < nth (o * n * inner + j * inner + k) d 0)%R) /\
    (0 < n -> axis_sum d (o * n * inner + k) inner n = 1%R).

(** In a buffer of [r] rows of [c] entries, every entry is positive and
    every row sums to 1. *)
Definition rows_stochastic (d : list R) (r c : nat) : Prop :=
  forall i, i < r ->
    (forall j, j < c -> (0 < nth (i * c + j) d 0)%R) /\
    (0 < c -> axis_sum d (i * c) 1 c = 1%R).

(** What [exp] makes of a number that is finite or [-inf]. *)
Definition real_exp (x : ext) : R :=
  match x with
  | Fin v => exp v
  | _ => 0%R
  end.

(** The values a masked similarity holds: finite, or [-inf]. *)
Definition fin_or_ninf (x : ext) : Prop :=
  match x with
  | Fin _ | NInf => True
  | _ => False
  end.

(** The softmax [d] of one row [x] of [c] masked similarities: all NaN
    when every entry is [-inf]; otherwise 0 on the [-inf] entries,
    positive elsewhere, and summing to 1. *)
Definition masked_row_ok (x d : nat -> ext) (c : nat) : Prop :=
  ((forall j, j < c -> x j = NInf) -> forall j, j < c -> d j = NaN) /\
  ((exists j, j < c /\ x j <> NInf) ->
     (forall j, j < c -> x j = NInf -> d j = Fin 0) /\
     (forall j, j < c -> x j <> NInf -> exists p, d j = Fin p /\ (0 < p)%R) /\
     ssum (tab c d) = Fin 1).

(** The stored mask, when there is one, has one row per batch element and
    one column per source position. *)
Definition mask_fits (B S : nat) (self : GlobalAttentionGeneral) : Prop :=
  match mask self with
  | None => True
  | Some m => shape m = [B; S]
  end.

(** The bit that [self.mask.repeat(queryL, 1)] holds for column [s] of row
    [i] of the flattened similarity ([false] without a mask). *)
Definition repeated_mask_bit (self : GlobalAttentionGeneral)
    (queryL sourceL i s : nat) : bool :=
  match mask self with
  | None => false
  | Some m =>
      match trepeat false m [queryL; 1] with
      | Ok rm => nth (i * sourceL + s) (data rm) false
      | Raise _ => false
      end
  end.

(** The softmax [d] of a row of [c] similarities masked by [bit]: all NaN
    when every position is masked; otherwise 0 on the masked positions,
    positive elsewhere, and summing to 1. *)
Definition masked_softmax_row (bit : nat -> bool) (d : nat -> ext) (c : nat) : Prop :=
  ((forall j, j < c -> bit j = true) -> forall j, j < c -> d j = NaN) /\
  ((exists j, j < c /\ bit j = false) ->
     (forall j, j < c -> bit j = true -> d j = Fin 0) /\
     (forall j, j < c -> bit j = false -> exists p, d j = Fin p /\ (0 < p)%R) /\
     ssum (tab c d) = Fin 1).

(** A layer [GlobalAttentionGeneral(1, 1)] on which
    [applyMask([[True, False], [False, True]])] was called: position 0 is
    masked for batch element 0 and position 1 for batch element 1. *)
Definition two_by_two_mask : tensor bool := mkT [2; 2] [true; false; false; true].

Definition masked_layer : GlobalAttentionGeneral :=
  this (fst (applyMask (Some two_by_two_mask)
               {| this := init 1 1 [1%R] [1%R] (List.repeat 0%R 100) [0%R];
                  stdout := [] |})).

(** The same layer with every position of its single batch row masked. *)
Definition fully_masked_layer : GlobalAttentionGeneral :=
  this (fst (applyMask (Some (mkT [1; 2] [true; true]))
               {| this := init 1 1 [1%R] [1%R] (List.repeat 0%R 100) [0%R];
                  stdout := [] |})).

(** A method that leaves the instance as it found it, whatever it prints
    and whether or not it raises. *)
Definition keeps_instance {A} (m : M A) : Prop :=
  forall w, this (fst (m w)) = this w.

(** Entry [(b, s, q)] of the similarity of Eq. (7): the dot product of
    the context at source position [s] and the query at position [q],
    over the [D] channels of batch element [b]. *)
Definition similarity (query context : tensor R) (D Q S b s q : nat) : R :=
  ssum (tab D (fun k =>
          (nth (b * D * S + k * S + s) (data context) 0
           * nth (b * D * Q + k * Q + q) (data query) 0)%R)).

(** [forward], lines 112 to 116, on the similarity [attn] viewed as
    [batch*queryL x sourceL]: the masking and the softmax of Eq. (2). *)
Definition mask_and_softmax (self : GlobalAttentionGeneral) (queryL : nat)
    (attn : tensor R) : result (tensor ext) :=
  rbind (match mask self with
         | Some self_mask =>
             rbind (trepeat false self_mask [queryL; 1])
                   (fun mask => masked_fill (tmap Fin attn) mask NInf)
         | None => Ok (tmap Fin attn)
         end)
        (fun attn => Softmax_forward (sm self) attn).

(** The lines a successful [forward] prints for an input
    [B x D x H x W]. *)
Definition forward_log (B D H W : nat) : list line :=
  [ SizeLine "sentence         = self.linear(sentence) => " [B; D];
    SizeLine "sentence         = sentence.view(batch_size, idf, 1, 1) => " [B; D; 1; 1];
    SizeLine "sentence         = sentence.repeat(1, 1, ih, iw) => " [B; D; H; W];
    SizeLine "sentence_vs      = torch.mul(input, sentence) =>" [B; D; H; W];
    SizeLine "sentence_vs      = self.conv_sentence_vis(sentence_vs) =>" [B; D; H; W];
    SizeLine "sent_att         = nn.Softmax()(sentence_vs) => " [B; D; H; W];
    SizeLine "weightedSentence = torch.mul(sentence, sent_att) =>" [B; D; H; W];
    TextLine "-------THE END OF GLAttentionGeneral-------" ].

(** * Properties *)

(** ** Buffers and sums *)

Lemma tab_length {A} n (f : nat -> A) : length (tab n f) = n.
Proof. unfold tab. now rewrite length_map, length_seq. Qed.

Lemma nth_tab {A} n (f : nat -> A) i d : i < n -> nth i (tab n f) d = f i.
Proof.
  intros Hi. unfold tab.
  rewrite (nth_indep _ d (f 0)) by now rewrite length_map, length_seq.
  rewrite map_nth, seq_nth by assumption. reflexivity.
Qed.

Lemma tab_ext {A} n (f g : nat -> A) :
  (forall i, i < n -> f i = g i) -> tab n f = tab n g.
Proof.
  intros E. unfold tab. apply map_ext_in. intros i Hi.
  apply in_seq in Hi. apply E. lia.
Qed.

Lemma tab_S {A} n (f : nat -> A) : tab (S n) f = f 0 :: tab n (fun i => f (S i)).
Proof. unfold tab. cbn. now rewrite <- seq_shift, map_map. Qed.

Lemma tab_nth_all {A} (l : list A) d : tab (length l) (fun i => nth i l d) = l.
Proof.
  induction l as [|x l IH]; [reflexivity|].
  cbn [length]. rewrite tab_S. cbn [nth]. now rewrite IH.
Qed.

Local Open Scope R_scope.

Lemma ssum_cons (x : R) l : ssum (x :: l) = x + ssum l.
Proof. reflexivity. Qed.

Lemma ssum_pos_tab n (f : nat -> R) :
  (0 < n)%nat -> (forall i, (i < n)%nat -> 0 < f i) -> 0 < ssum (tab n f).
Proof.
  revert f. induction n as [|n IH]; intros f Hn Hf; [lia|].
  rewrite tab_S, ssum_cons.
  destruct n as [|n].
  - cbn. rewrite Rplus_0_r. apply Hf. lia.
  - assert (0 < f 0%nat) by (apply Hf; lia).
    assert (0 < ssum (tab (S n) (fun i => f (S i)))).
    { apply IH; [lia|]. intros i Hi. apply Hf. lia. }
    lra.
Qed.

Lemma ssum_tab_div n (f : nat -> R) s :
  ssum (tab n (fun i => f i / s)) = ssum (tab n f) / s.
Proof.
  revert f. induction n as [|n IH]; intros f.
  - cbn. unfold Rdiv. now rewrite Rmult_0_l.
  - rewrite !tab_S, !ssum_cons, IH. unfold Rdiv. ring.
Qed.

Lemma ssum_tab_ext n (f g : nat -> R) :
  (forall i, (i < n)%nat -> f i = g i) -> ssum (tab n f) = ssum (tab n g).
Proof. intros E. now rewrite (tab_ext _ _ E). Qed.

Lemma ssum_tab_le n (f g : nat -> R) :
  (forall i, (i < n)%nat -> f i <= g i) -> ssum (tab n f) <= ssum (tab n g).
Proof.
  revert f g. induction n as [|n IH]; intros f g Hfg.
  - cbn. lra.
  - rewrite !tab_S, !ssum_cons.
    assert (f 0%nat <= g 0%nat) by (apply Hfg; lia).
    assert (ssum (tab n (fun i => f (S i))) <= ssum (tab n (fun i => g (S i)))).
    { apply IH. intros i Hi. apply Hfg. lia. }
    lra.
Qed.

Lemma ssum_tab_lt n (f g : nat -> R) k :
  (forall i, (i < n)%nat -> f i <= g i) -> (k < n)%nat -> f k < g k ->
  ssum (tab n f) < ssum (tab n g).
Proof.
  revert f g k. induction n as [|n IH]; intros f g k Hfg Hk Hlt; [lia|].
  rewrite !tab_S, !ssum_cons.
  assert (f 0%nat <= g 0%nat) by (apply Hfg; lia).
  destruct k as [|k].
  - assert (ssum (tab n (fun i => f (S i))) <= ssum (tab n (fun i => g (S i)))).
    { apply ssum_tab_le. intros i Hi. apply Hfg. lia. }
    lra.
  - assert (ssum (tab n (fun i => f (S i))) < ssum (tab n (fun i => g (S i)))).
    { apply (IH _ _ k); [|lia|assumption]. intros i Hi. apply Hfg. lia. }
    lra.
Qed.

Local Close Scope R_scope.

(** ** Index arithmetic *)

Lemma flat2_lt n inner j k : j < n -> k < inner -> j * inner + k < n * inner.
Proof.
  intros Hj Hk.
  assert (S j * inner <= n * inner) by (apply Nat.mul_le_mono_r; lia).
  lia.
Qed.

Lemma flat3_div o n inner j k :
  j < n -> k < inner -> (o * n * inner + j * inner + k) / (n * inner) = o.
Proof.
  intros Hj Hk. symmetry.
  apply (Nat.div_unique _ _ _ (j * inner + k)).
  - now apply flat2_lt.
  - lia.
Qed.

Lemma flat3_mod o n inner j k :
  k < inner -> (o * n * inner + j * inner + k) mod inner = k.
Proof.
  intros Hk. symmetry.
  apply (Nat.mod_unique _ _ (o * n + j)); nia.
Qed.

Lemma flat3_lt outer n inner o j k :
  o < outer -> j < n -> k < inner ->
  o * n * inner + j * inner + k < outer * n * inner.
Proof.
  intros Ho Hj Hk.
  pose proof (flat2_lt Hj Hk).
  assert (S o * (n * inner) <= outer * (n * inner)) by (apply Nat.mul_le_mono_r; lia).
  lia.
Qed.

Lemma numel_app s1 s2 : numel (s1 ++ s2) = numel s1 * numel s2.
Proof.
  induction s1 as [|a s1 IH]; cbn [app numel].
  - lia.
  - rewrite IH. apply Nat.mul_assoc.
Qed.

(** ** The tensor operations *)

Lemma softmax_dim_entry {A} `{Scalar A} (t : tensor A) pre n post :
  shape t = pre ++ n :: post ->
  exists d, softmax_dim (length pre) t = Ok (mkT (shape t) d) /\
            length d = numel (shape t) /\
            forall o j k, o < numel pre -> j < n -> k < numel post ->
              nth (o * n * numel post + j * numel post + k) d szero =
              sdiv (sexp (nth (o * n * numel post + j * numel post + k) (data t) szero))
                   (ssum (tab n (fun j' =>
                      sexp (nth (o * n * numel post + j' * numel post + k) (data t) szero)))).
Proof.
  intros Hs. destruct t as [sh dt]. cbn [shape] in Hs. subst sh.
  unfold softmax_dim. cbn [shape data].
  assert (Hlt : (length pre <? length (pre ++ n :: post)) = true).
  { apply Nat.ltb_lt. rewrite length_app. cbn. lia. }
  rewrite Hlt. eexists. split; [reflexivity|]. split; [apply tab_length|].
  rewrite nth_middle.
  replace (skipn (S (length pre)) (pre ++ n :: post)) with post.
  2:{ rewrite skipn_app, skipn_all2 by lia.
      replace (S (length pre) - length pre) with 1 by lia. reflexivity. }
  replace (numel (pre ++ n :: post)) with (numel pre * n * numel post).
  2:{ rewrite numel_app. cbn [numel]. lia. }
  intros o j k Ho Hj Hk. rewrite nth_tab by now apply flat3_lt.
  rewrite flat3_div, flat3_mod by assumption. reflexivity.
Qed.

Lemma softmax_2d_entry {A} `{Scalar A} (t : tensor A) r c :
  shape t = [r; c] ->
  exists d, Softmax_forward nn_Softmax t = Ok (mkT [r; c] d) /\
            length d = r * c /\
            forall i j, i < r -> j < c ->
              nth (i * c + j) d szero =
              sdiv (sexp (nth (i * c + j) (data t) szero))
                   (ssum (tab c (fun j' => sexp (nth (i * c + j') (data t) szero)))).
Proof.
  intros Hs. destruct (@softmax_dim_entry A _ t [r] c [] Hs) as (d & E & L & En).
  exists d. unfold Softmax_forward. cbn [sm_dim nn_Softmax].
  rewrite Hs in *. cbn [length legacy_softmax_dim numel] in *.
  split; [exact E|]. split; [lia|].
  intros i j Hi Hj. specialize (En i j 0 ltac:(lia) Hj ltac:(lia)).
  replace (i * c * 1 + j * 1 + 0) with (i * c + j) in En by lia.
  rewrite En. f_equal. f_equal. apply tab_ext. intros j' _.
  f_equal. f_equal. lia.
Qed.

(** [nn.Softmax()] on a matrix runs along dimension 1, its rows. *)
Lemma Softmax_forward_2d {A} `{Scalar A} (t : tensor A) r c :
  shape t = [r; c] -> Softmax_forward nn_Softmax t = softmax_dim 1 t.
Proof. intros Hs. unfold Softmax_forward. cbn [sm_dim nn_Softmax]. now rewrite Hs. Qed.

(** ... and treats each row on its own: row [i] of the result is what
    [nn.Softmax()] gives on row [i] alone. *)
Lemma softmax_rowwise {A} `{Scalar A} (t : tensor A) r c d i :
  shape t = [r; c] -> Softmax_forward nn_Softmax t = Ok (mkT [r; c] d) -> i < r ->
  Softmax_forward nn_Softmax (mkT [1; c] (tab c (fun j => nth (i * c + j) (data t) szero)))
  = Ok (mkT [1; c] (tab c (fun j => nth (i * c + j) d szero))).
Proof.
  intros Hs E Hi.
  destruct (@softmax_2d_entry A _ t r c Hs) as (d' & E' & _ & En).
  rewrite E in E'. injection E' as <-.
  destruct (@softmax_2d_entry A _
              (mkT [1; c] (tab c (fun j => nth (i * c + j) (data t) szero))) 1 c eq_refl)
    as (d1 & E1 & L1 & En1).
  rewrite E1. f_equal. f_equal.
  rewrite <- (tab_nth_all d1 szero). rewrite L1, Nat.mul_1_l.
  apply tab_ext. intros j Hj.
  specialize (En1 0 j Nat.lt_0_1 Hj). cbn [data] in En1.
  change (0 * c + j) with j in En1. rewrite En1, (En i j Hi Hj).
  rewrite nth_tab by assumption. f_equal. f_equal.
  apply tab_ext. intros j' Hj'. change (0 * c + j') with j'.
  now rewrite nth_tab.
Qed.

(** The same at any rank: the softmax along a dimension treats each line
    along that dimension on its own. *)
Lemma softmax_linewise {A} `{Scalar A} (t : tensor A) pre n post d o k :
  shape t = pre ++ n :: post ->
  softmax_dim (length pre) t = Ok (mkT (shape t) d) ->
  o < numel pre -> k < numel post ->
  Softmax_forward nn_Softmax
    (mkT [1; n] (tab n (fun j => nth (o * n * numel post + j * numel post + k) (data t) szero)))
  = Ok (mkT [1; n] (tab n (fun j => nth (o * n * numel post + j * numel post + k) d szero))).
Proof.
  intros Hs E Ho Hk.
  destruct (@softmax_dim_entry A _ t pre n post Hs) as (d' & E' & _ & En).
  rewrite E in E'. injection E' as <-.
  set (line := tab n (fun j => nth (o * n * numel post + j * numel post + k) (data t) szero)).
  destruct (@softmax_2d_entry A _ (mkT [1; n] line) 1 n eq_refl) as (d1 & E1 & L1 & En1).
  rewrite E1. f_equal. f_equal.
  rewrite <- (tab_nth_all d1 szero). rewrite L1, Nat.mul_1_l.
  apply tab_ext. intros j Hj.
  specialize (En1 0 j Nat.lt_0_1 Hj). cbn [data] in En1.
  change (0 * n + j) with j in En1. rewrite En1, (En o j k Ho Hj Hk).
  unfold line. rewrite nth_tab by assumption. f_equal. f_equal.
  apply tab_ext. intros j' Hj'. change (0 * n + j') with j'.
  now rewrite nth_tab.
Qed.

Lemma softmax_dim_spec (t : tensor R) pre n post :
  shape t = pre ++ n :: post ->
  exists d, softmax_dim (length pre) t = Ok (mkT (shape t) d) /\
            length d = numel (shape t) /\
            stochastic d (numel pre) n (numel post).
Proof.
  intros Hs. destruct (softmax_dim_entry t pre n post Hs) as (d & E & L & En).
  exists d. split; [exact E|]. split; [exact L|].
  cbn [szero sdiv sexp R_scalar] in En.
  set (inner := numel post) in *.
  set (x := fun i => exp (nth i (data t) 0%R)).
  assert (Hpos : forall o k, 0 < n ->
            (0 < ssum (tab n (fun j => x (o * n * inner + j * inner + k)%nat)))%R).
  { intros o k Hn. apply ssum_pos_tab; [assumption|]. intros. apply exp_pos. }
  intros o k Ho Hk. split.
  - intros j Hj. rewrite (En o j k) by assumption.
    apply Rdiv_lt_0_compat; [apply exp_pos | apply (Hpos o k); lia].
  - intros Hn. unfold axis_sum.
    rewrite ssum_tab_ext with
      (g := fun j => (x (o * n * inner + j * inner + k)%nat
                      / ssum (tab n (fun j' => x (o * n * inner + j' * inner + k)%nat)))%R).
    + rewrite ssum_tab_div. specialize (Hpos o k Hn). field. lra.
    + intros j Hj.
      replace (o * n * inner + k + j * inner) with (o * n * inner + j * inner + k) by lia.
      now apply En.
Qed.

(** Sums and quotients of finite values in [ext]. *)

Lemma ssum_ext_fin n (f : nat -> ext) (g : nat -> R) :
  (forall i, i < n -> f i = Fin (g i)) -> ssum (tab n f) = Fin (ssum (tab n g)).
Proof.
  revert f g. induction n as [|n IH]; intros f g E; [reflexivity|].
  rewrite !tab_S. cbn [ssum fold_right].
  change (fold_right sadd szero (tab n (fun i => f (S i))))
    with (ssum (tab n (fun i => f (S i)))).
  rewrite (IH _ (fun i => g (S i))) by (intros; apply E; lia).
  rewrite (E 0) by lia. reflexivity.
Qed.

Lemma ext_div_fin a s : s <> 0%R -> ext_div (Fin a) (Fin s) = Fin (a / s).
Proof. intros Hs. cbn. destruct (Req_dec_T s 0); [contradiction|reflexivity]. Qed.

Lemma ext_div_0_0 : ext_div (Fin 0) (Fin 0) = NaN.
Proof.
  cbn. destruct (Req_dec_T 0 0) as [_|N]; [|contradiction].
  unfold inf_of_sign. destruct (total_order_T 0 0) as [[L|_]|L]; try reflexivity; lra.
Qed.

Lemma sexp_fin_or_ninf x : fin_or_ninf x -> sexp x = Fin (real_exp x).
Proof. destruct x; cbn; intros []; reflexivity. Qed.

Lemma real_exp_nonneg x : (0 <= real_exp x)%R.
Proof. destruct x; cbn; try lra. apply Rlt_le, exp_pos. Qed.

Lemma real_exp_pos x : fin_or_ninf x -> x <> NInf -> (0 < real_exp x)%R.
Proof. destruct x; cbn; intros [] N; [apply exp_pos | contradiction]. Qed.

Lemma ssum_tab_zero n (f : nat -> R) :
  (forall i, i < n -> f i = 0%R) -> ssum (tab n f) = 0%R.
Proof.
  revert f. induction n as [|n IH]; intros f E; [reflexivity|].
  rewrite tab_S, ssum_cons, IH by (intros; apply E; lia).
  rewrite (E 0) by lia. lra.
Qed.

Lemma ssum_tab_pos_one n (f : nat -> R) k :
  (forall i, i < n -> (0 <= f i)%R) -> k < n -> (0 < f k)%R -> (0 < ssum (tab n f))%R.
Proof.
  intros Hf Hk Hp.
  assert (ssum (tab n (fun _ => 0%R)) < ssum (tab n f))%R
    by (apply ssum_tab_lt with (k := k); auto).
  rewrite ssum_tab_zero in H by reflexivity. exact H.
Qed.

Lemma softmax_row_ext (x d : nat -> ext) c :
  (forall j, j < c -> fin_or_ninf (x j)) ->
  (forall j, j < c -> d j = sdiv (sexp (x j)) (ssum (tab c (fun j' => sexp (x j'))))) ->
  masked_row_ok x d c.
Proof.
  intros Hx Hd.
  assert (Hsum : ssum (tab c (fun j' => sexp (x j')))
                 = Fin (ssum (tab c (fun j' => real_exp (x j'))))).
  { apply ssum_ext_fin. intros i Hi. apply sexp_fin_or_ninf. now apply Hx. }
  set (s := ssum (tab c (fun j' => real_exp (x j')))) in *.
  assert (Hdj : forall j, j < c -> d j = ext_div (Fin (real_exp (x j))) (Fin s)).
  { intros j Hj. rewrite (Hd j Hj), Hsum, sexp_fin_or_ninf by now apply Hx. reflexivity. }
  split.
  - intros Hall j Hj. rewrite (Hdj j Hj), (Hall j Hj).
    assert (s = 0%R) as ->.
    { apply ssum_tab_zero. intros i Hi. now rewrite (Hall i Hi). }
    apply ext_div_0_0.
  - intros (k & Hk & Hnk).
    assert (Hs : (0 < s)%R).
    { apply ssum_tab_pos_one with (k := k); [|assumption|].
      - intros. apply real_exp_nonneg.
      - apply real_exp_pos; auto. }
    split; [|split].
    + intros j Hj E. rewrite (Hdj j Hj), E, ext_div_fin by lra. cbn.
      f_equal. unfold Rdiv. ring.
    + intros j Hj N. exists (real_exp (x j) / s)%R. split.
      * rewrite (Hdj j Hj). apply ext_div_fin. lra.
      * apply Rdiv_lt_0_compat; [apply real_exp_pos; auto | exact Hs].
    + rewrite ssum_ext_fin with (g := fun j => (real_exp (x j) / s)%R).
      * rewrite ssum_tab_div. fold s. f_equal. field. lra.
      * intros j Hj. rewrite (Hdj j Hj). apply ext_div_fin. lra.
Qed.

Lemma view_infer {A} (t : tensor A) ds k q :
  length (filter is_infer ds) = 1 -> known_numel ds = k -> 0 < k ->
  numel (shape t) = q * k ->
  view t ds = Ok (mkT (map (resolve q) ds) (data t)).
Proof.
  intros Hi Hk Hpos Hn. unfold view. rewrite Hi, Hk, Hn.
  rewrite Nat.Div0.mod_mul, Nat.div_mul by lia.
  destruct (Nat.ltb_spec 0 k); [reflexivity | lia].
Qed.

Lemma view_exact {A} (t : tensor A) ds :
  length (filter is_infer ds) = 0 -> numel (shape t) = known_numel ds ->
  view t ds = Ok (mkT (map (resolve 0) ds) (data t)).
Proof.
  intros Hi Hn. unfold view. rewrite Hi, Hn, Nat.eqb_refl. reflexivity.
Qed.

Lemma transpose12_shape {A} `{Scalar A} (t : tensor A) b m n :
  shape t = [b; m; n] ->
  exists d, transpose12 t = Ok (mkT [b; n; m] d) /\ length d = b * n * m.
Proof.
  intros Hs. unfold transpose12. rewrite Hs. eexists. split; [reflexivity|].
  apply tab_length.
Qed.

Lemma bmm_shape {A} `{Scalar A} (a b : tensor A) ba n m p :
  shape a = [ba; n; m] -> shape b = [ba; m; p] ->
  exists d, bmm a b = Ok (mkT [ba; n; p] d) /\ length d = ba * n * p.
Proof.
  intros Ha Hb. unfold bmm. rewrite Ha, Hb, !Nat.eqb_refl. cbn [andb].
  eexists. split; [reflexivity|]. apply tab_length.
Qed.

Lemma transpose12_entry {A} `{Scalar A} (t : tensor A) b m n :
  shape t = [b; m; n] ->
  exists d, transpose12 t = Ok (mkT [b; n; m] d) /\ length d = b * n * m /\
    forall bi r c, bi < b -> r < n -> c < m ->
      nth (bi * n * m + r * m + c) d szero =
      nth (bi * m * n + c * n + r) (data t) szero.
Proof.
  intros Hs. unfold transpose12. rewrite Hs. eexists.
  split; [reflexivity|]. split; [apply tab_length|].
  intros bi r c Hb Hr Hc. rewrite nth_tab by now apply flat3_lt.
  rewrite flat3_div, flat3_mod by assumption.
  replace ((bi * n * m + r * m + c) / m) with (bi * n + r).
  2:{ apply (Nat.div_unique _ _ _ c); lia. }
  replace ((bi * n + r) mod n) with r.
  2:{ apply (Nat.mod_unique _ _ bi); lia. }
  reflexivity.
Qed.

Lemma bmm_entry {A} `{Scalar A} (a b : tensor A) ba n m p :
  shape a = [ba; n; m] -> shape b = [ba; m; p] ->
  exists d, bmm a b = Ok (mkT [ba; n; p] d) /\ length d = ba * n * p /\
    forall bi r c, bi < ba -> r < n -> c < p ->
      nth (bi * n * p + r * p + c) d szero =
      ssum (tab m (fun k =>
              smul (nth (bi * n * m + r * m + k) (data a) szero)
                   (nth (bi * m * p + k * p + c) (data b) szero))).
Proof.
  intros Ha Hb. unfold bmm. rewrite Ha, Hb, !Nat.eqb_refl. cbn [andb].
  eexists. split; [reflexivity|]. split; [apply tab_length|].
  intros bi r c Hbi Hr Hc. rewrite nth_tab by now apply flat3_lt.
  rewrite flat3_div, flat3_mod by assumption.
  replace ((bi * n * p + r * p + c) / p) with (bi * n + r)
    by (apply (Nat.div_unique _ _ _ c); lia).
  replace ((bi * n + r) mod n) with r by (apply (Nat.mod_unique _ _ bi); lia).
  reflexivity.
Qed.

Lemma softmax_2d (t : tensor R) r c :
  shape t = [r; c] ->
  exists d, Softmax_forward nn_Softmax t = Ok (mkT [r; c] d) /\
            length d = r * c /\ rows_stochastic d r c.
Proof.
  intros Hs. destruct (@softmax_dim_spec t [r] c [] Hs) as (d & E & L & St).
  exists d. unfold Softmax_forward. cbn [sm_dim nn_Softmax].
  rewrite Hs in *. cbn [length legacy_softmax_dim] in *.
  split; [exact E|]. split; [cbn [numel] in L; lia|].
  intros i Hi. cbn [numel] in St.
  destruct (St i 0) as [P S1]; [lia|lia|]. split.
  - intros j Hj. specialize (P j Hj).
    replace (i * c + j) with (i * c * 1 + j * 1 + 0) by lia. exact P.
  - intros Hc. specialize (S1 Hc).
    replace (i * c) with (i * c * 1 + 0) by lia. exact S1.
Qed.

Lemma wrap_unravel s i : i < numel s -> wrap_index s (unravel s i) = i.
Proof.
  unfold wrap_index. revert i. induction s as [|d s IH]; intros i Hi.
  - cbn in *. lia.
  - cbn [unravel zip_with ravel numel] in *.
    assert (Hn : 0 < numel s) by (destruct (numel s); lia).
    rewrite IH by (apply Nat.mod_upper_bound; lia).
    rewrite Nat.mod_small.
    + rewrite (Nat.div_mod_eq i (numel s)) at 3. lia.
    + apply Nat.Div0.div_lt_upper_bound. lia.
Qed.

Lemma pad_shape_same s : pad_shape (length s) s = s.
Proof. unfold pad_shape. now rewrite Nat.sub_diag. Qed.

Lemma broadcast_aligned_same s : broadcast_aligned s s = Some s.
Proof.
  induction s as [|a s IH]; [reflexivity|].
  cbn. now rewrite IH, Nat.eqb_refl.
Qed.

Lemma broadcast_shapes_same s : broadcast_shapes s s = Some s.
Proof.
  unfold broadcast_shapes. rewrite Nat.max_id, pad_shape_same.
  apply broadcast_aligned_same.
Qed.

Lemma masked_fill_same {A} `{Scalar A} (t : tensor A) (m : tensor bool) v s :
  shape t = s -> shape m = s ->
  masked_fill t m v =
    Ok (mkT s (tab (numel s)
                 (fun i => if nth i (data m) false then v else nth i (data t) szero))).
Proof.
  intros Ht Hm. unfold masked_fill. rewrite Ht, Hm, broadcast_shapes_same.
  destruct (list_eq_dec Nat.eq_dec s s) as [_|N]; [|contradiction].
  rewrite pad_shape_same. f_equal. f_equal. apply tab_ext. intros i Hi.
  now rewrite wrap_unravel.
Qed.

Lemma tmul_same {A} `{Scalar A} (a b : tensor A) s :
  shape a = s -> shape b = s ->
  exists d, tmul a b = Ok (mkT s d) /\ length d = numel s.
Proof.
  intros Ha Hb. unfold tmul. rewrite Ha, Hb, broadcast_shapes_same.
  eexists. split; [reflexivity|]. apply tab_length.
Qed.

Lemma trepeat_shape {A} (d : A) (t : tensor A) reps os :
  length (shape t) <= length reps ->
  zip_with Nat.mul reps (pad_shape (length reps) (shape t)) = os ->
  exists d', trepeat d t reps = Ok (mkT os d') /\ length d' = numel os.
Proof.
  intros Hl Hos. unfold trepeat.
  destruct (Nat.ltb_spec (length reps) (length (shape t))); [lia|].
  rewrite Hos. eexists. split; [reflexivity|]. apply tab_length.
Qed.

Lemma trepeat_rows {A} (d : A) (t : tensor A) b s q :
  shape t = [b; s] ->
  trepeat d t [q; 1] =
    Ok (mkT [q * b; s]
          (tab (q * b * s) (fun i => nth ((i / s) mod b * s + i mod s) (data t) d))).
Proof.
  intros Hs. unfold trepeat. rewrite Hs.
  cbn [length Nat.ltb Nat.leb pad_shape Nat.sub List.repeat app zip_with].
  rewrite Nat.mul_1_l. f_equal. f_equal.
  cbn [numel]. rewrite Nat.mul_1_r. apply tab_ext. intros i Hi.
  unfold wrap_index. cbn [unravel numel zip_with ravel].
  rewrite !Nat.mul_1_r, Nat.div_1_r, Nat.Div0.mod_mod. f_equal. lia.
Qed.

Lemma Conv2d_forward_shape (m : Conv2d) (x : tensor R) n c h w :
  shape x = [n; c; h; w] -> c = in_channels m -> 0 < h -> 0 < w ->
  exists d, Conv2d_forward m x = Ok (mkT [n; out_channels m; h; w] d) /\
            length d = n * out_channels m * h * w.
Proof.
  intros Hs Hc Hh Hw. unfold Conv2d_forward. rewrite Hs, <- Hc, Nat.eqb_refl.
  destruct (Nat.ltb_spec 0 h); [|lia]. destruct (Nat.ltb_spec 0 w); [|lia].
  cbn [andb]. eexists. split; [reflexivity|]. apply tab_length.
Qed.

Lemma Linear_forward_shape (m : Linear) (x : tensor R) b :
  shape x = [b; in_features m] ->
  exists d, Linear_forward m x = Ok (mkT [b; out_features m] d) /\
            length d = b * out_features m.
Proof.
  intros Hs. unfold Linear_forward. rewrite Hs. cbn [rev app removelast].
  rewrite Nat.eqb_refl. eexists. split; [reflexivity|].
  rewrite tab_length. cbn [numel]. lia.
Qed.

Lemma softmax_4d (t : tensor R) b c h w :
  shape t = [b; c; h; w] ->
  exists d, Softmax_forward nn_Softmax t = Ok (mkT [b; c; h; w] d) /\
            length d = b * c * h * w /\ stochastic d b c (h * w).
Proof.
  intros Hs. destruct (@softmax_dim_spec t [b] c [h; w] Hs) as (d & E & L & St).
  exists d. unfold Softmax_forward. cbn [sm_dim nn_Softmax].
  rewrite Hs in *. cbn [length legacy_softmax_dim numel] in *.
  rewrite !Nat.mul_1_r in St.
  split; [exact E|]. split; [lia|exact St].
Qed.

Ltac op_step L :=
  let d := fresh "d" in let E := fresh "E" in
  destruct L as (d & E & ?); rewrite E; clear E; cbn [rbind].

Lemma func_attention_eq8_spec query context B D Q ih iw :
  shape query = [B; D; Q] -> shape context = [B; D; ih; iw] ->
  0 < B -> 0 < ih -> 0 < iw ->
  exists d, func_attention_eq8 query context =
              Ok {| fa_batch_size := B; fa_queryL := Q; fa_ih := ih; fa_iw := iw;
                    fa_sourceL := ih * iw;
                    fa_context := mkT [B; D; ih * iw] (data context);
                    fa_attn := mkT [B * (ih * iw); Q] d |} /\
            length d = B * (ih * iw) * Q /\
            rows_stochastic d (B * (ih * iw)) Q.
Proof.
  intros Hq Hc HB Hih Hiw. unfold func_attention_eq8, size.
  rewrite Hq, Hc. cbn [nth_error rbind].
  rewrite (@view_infer _ context _ (B * (ih * iw)) D);
    [ | reflexivity | cbn; lia | nia | rewrite Hc; cbn; nia ].
  cbn [rbind map resolve].
  op_step (@transpose12_shape R _ (mkT [B; D; ih * iw] (data context)) B D (ih * iw) eq_refl).
  op_step (@bmm_shape R _ (mkT [B; ih * iw; D] d) query B (ih * iw) D Q eq_refl Hq).
  rewrite view_exact; [ | reflexivity | cbn; nia ].
  cbn [rbind map resolve data].
  destruct (@softmax_2d (mkT [B * (ih * iw); Q] d0) _ _ eq_refl) as (d1 & E & L & St).
  cbn [data] in E. rewrite E. cbn [rbind]. exists d1. auto.
Qed.

Lemma func_attention_eq9_spec query context gamma1 B D Q ih iw :
  shape query = [B; D; Q] -> shape context = [B; D; ih; iw] ->
  0 < B -> 0 < ih -> 0 < iw ->
  exists d, func_attention_eq9 query context gamma1 =
              Ok {| fa_batch_size := B; fa_queryL := Q; fa_ih := ih; fa_iw := iw;
                    fa_sourceL := ih * iw;
                    fa_context := mkT [B; D; ih * iw] (data context);
                    fa_attn := mkT [B * Q; ih * iw] d |} /\
            length d = B * Q * (ih * iw) /\
            rows_stochastic d (B * Q) (ih * iw).
Proof.
  intros Hq Hc HB Hih Hiw. unfold func_attention_eq9.
  destruct (func_attention_eq8_spec query context Hq Hc HB Hih Hiw) as (d8 & E & _ & _).
  rewrite E. clear E.
  cbn [rbind fa_attn fa_batch_size fa_queryL fa_sourceL fa_ih fa_iw fa_context].
  rewrite view_exact; [ | reflexivity | cbn; nia ].
  cbn [rbind map resolve data].
  op_step (@transpose12_shape R _ (mkT [B; ih * iw; Q] d8) B (ih * iw) Q eq_refl).
  rewrite view_exact; [ | reflexivity | cbn; nia ].
  cbn [rbind map resolve data].
  unfold sharpen.
  destruct (@softmax_2d (scale (mkT [B * Q; ih * iw] d) gamma1) _ _ eq_refl)
    as (d9 & E & L & St).
  rewrite E. cbn [rbind]. exists d9. auto.
Qed.

Lemma func_attention_spec query context gamma1 B D Q ih iw :
  shape query = [B; D; Q] -> shape context = [B; D; ih; iw] ->
  0 < B -> 0 < ih -> 0 < iw ->
  exists l dwc,
    func_attention_eq9 query context gamma1 = Ok l /\
    func_attention query context gamma1 =
      Ok (mkT [B; D; Q] dwc, mkT [B; Q; ih; iw] (data (fa_attn l))) /\
    shape (fa_attn l) = [B * Q; ih * iw] /\
    rows_stochastic (data (fa_attn l)) (B * Q) (ih * iw).
Proof.
  intros Hq Hc HB Hih Hiw. unfold func_attention.
  destruct (func_attention_eq9_spec query context gamma1 Hq Hc HB Hih Hiw) as (d9 & E & L & St).
  rewrite E. eexists. 
  cbn [rbind fa_attn fa_batch_size fa_queryL fa_sourceL fa_ih fa_iw fa_context].
  rewrite view_exact; [ | reflexivity | cbn; nia ].
  cbn [rbind map resolve data].
  op_step (@transpose12_shape R _ (mkT [B; Q; ih * iw] d9) B Q (ih * iw) eq_refl).
  op_step (@bmm_shape R _ (mkT [B; D; ih * iw] (data context)) (mkT [B; ih * iw; Q] d)
          B D (ih * iw) Q eq_refl eq_refl).
  rewrite (@view_infer _ _ _ (B * (ih * iw)) Q);
    [ | reflexivity | cbn; lia | nia | cbn; nia ].
  cbn [rbind map resolve data]. exists d0. auto.
Qed.

(** ** func_attention: the two softmax stages and the shapes returned *)

(** C2, as amended.  For a query [B x D x Q] and a context
    [B x D x ih x iw] with positive B, ih and iw, [func_attention]
    succeeds, and its two softmax stages run along different axes.  The
    first (Eq. 8) is [nn.Softmax()] on the similarity viewed as
    [B*S x Q]: it runs along dimension 1, the query axis, one row per
    batch element and source position, and the weights of a row are what
    the softmax gives on the [Q] similarities of that row alone.  The
    second (Eq. 9) is [nn.Softmax()] on the transposed first-stage
    weights, viewed as [B*Q x S] and multiplied by [gamma1]: it runs
    along the source axis, one row per batch element and query position,
    and its result is the attention map returned. *)
Theorem C2_softmax_axes query context gamma1 B D Q ih iw :
  shape query = [B; D; Q] -> shape context = [B; D; ih; iw] ->
  0 < B -> 0 < ih -> 0 < iw ->
  let S := ih * iw in
  exists l8 l9 contextT sim attnT wc am,
    func_attention_eq8 query context = Ok l8 /\
    func_attention_eq9 query context gamma1 = Ok l9 /\
    func_attention query context gamma1 = Ok (wc, am) /\
    transpose12 (fa_context l8) = Ok contextT /\
    bmm contextT query = Ok sim /\
    shape sim = [B; S; Q] /\
    softmax_dim 1 (mkT [B * S; Q] (data sim)) = Ok (fa_attn l8) /\
    shape (fa_attn l8) = [B * S; Q] /\
    (forall b s, b < B -> s < S ->
       Softmax_forward nn_Softmax (mkT [1; Q] (row (data sim) Q (b * S + s)))
       = Ok (mkT [1; Q] (row (data (fa_attn l8)) Q (b * S + s)))) /\
    shape attnT = [B * Q; S] /\
    (forall b q s, b < B -> q < Q -> s < S ->
       nth ((b * Q + q) * S + s) (data attnT) 0%R
       = nth ((b * S + s) * Q + q) (data (fa_attn l8)) 0%R) /\
    softmax_dim 1 (scale attnT gamma1) = Ok (fa_attn l9) /\
    shape (fa_attn l9) = [B * Q; S] /\
    (forall b q, b < B -> q < Q ->
       Softmax_forward nn_Softmax
         (mkT [1; S] (row (data (scale attnT gamma1)) S (b * Q + q)))
       = Ok (mkT [1; S] (row (data (fa_attn l9)) S (b * Q + q)))) /\
    data am = data (fa_attn l9).
Proof.
  intros Hq Hc HB Hih Hiw S.
  assert (HS : 0 < S) by (unfold S; nia).
  destruct (func_attention_spec query context gamma1 Hq Hc HB Hih Hiw)
    as (l9 & dwc & E9 & E & Hs9 & _).
  (* Eq. (7) and Eq. (8) *)
  assert (H8 : exists d8 contextT sim,
    func_attention_eq8 query context =
      Ok {| fa_batch_size := B; fa_queryL := Q; fa_ih := ih; fa_iw := iw;
            fa_sourceL := S; fa_context := mkT [B; D; S] (data context);
            fa_attn := mkT [B * S; Q] d8 |} /\
    transpose12 (mkT [B; D; S] (data context)) = Ok contextT /\
    bmm contextT query = Ok sim /\ shape sim = [B; S; Q] /\
    Softmax_forward nn_Softmax (mkT [B * S; Q] (data sim)) = Ok (mkT [B * S; Q] d8)).
  { unfold func_attention_eq8, size. rewrite Hq, Hc. cbn [nth_error rbind]. fold S.
    rewrite (@view_infer _ context _ (B * S) D);
      [ | reflexivity | cbn; lia | nia | rewrite Hc; unfold S; cbn; nia ].
    cbn [rbind map resolve].
    destruct (@transpose12_shape R _ (mkT [B; D; S] (data context)) B D S eq_refl)
      as (dT & ET & LT).
    rewrite ET. cbn [rbind].
    destruct (@bmm_shape R _ (mkT [B; S; D] dT) query B S D Q eq_refl Hq)
      as (dm & Em & Lm).
    rewrite Em. cbn [rbind].
    rewrite view_exact; [ | reflexivity | cbn; nia ].
    cbn [rbind map resolve data].
    destruct (@softmax_2d_entry R _ (mkT [B * S; Q] dm) _ _ eq_refl) as (d8 & E8 & _).
    rewrite E8. cbn [rbind].
    exists d8, (mkT [B; S; D] dT), (mkT [B; S; Q] dm).
    split; [reflexivity|]. split; [reflexivity|]. split; [exact Em|].
    split; [reflexivity|exact E8]. }
  destruct H8 as (d8 & contextT & sim & E8 & ET & Em & Hsim & Esm8).
  (* Eq. (9) *)
  assert (H9 : exists attnT d9,
    func_attention_eq9 query context gamma1 =
      Ok {| fa_batch_size := B; fa_queryL := Q; fa_ih := ih; fa_iw := iw;
            fa_sourceL := S; fa_context := mkT [B; D; S] (data context);
            fa_attn := mkT [B * Q; S] d9 |} /\
    shape attnT = [B * Q; S] /\
    (forall b q s, b < B -> q < Q -> s < S ->
       nth ((b * Q + q) * S + s) (data attnT) 0%R = nth ((b * S + s) * Q + q) d8 0%R) /\
    Softmax_forward nn_Softmax (scale attnT gamma1) = Ok (mkT [B * Q; S] d9)).
  { unfold func_attention_eq9. rewrite E8.
    cbn [rbind fa_attn fa_batch_size fa_queryL fa_sourceL fa_ih fa_iw fa_context].
    rewrite view_exact; [ | reflexivity | cbn; nia ].
    cbn [rbind map resolve data].
    destruct (@transpose12_entry R _ (mkT [B; S; Q] d8) B S Q eq_refl)
      as (dT & ET' & LT & EnT).
    cbn [szero R_scalar data] in EnT.
    rewrite ET'. cbn [rbind].
    rewrite view_exact; [ | reflexivity | cbn; nia ].
    cbn [rbind map resolve data]. unfold sharpen.
    destruct (@softmax_2d_entry R _ (scale (mkT [B * Q; S] dT) gamma1) _ _ eq_refl)
      as (d9 & E9' & _).
    rewrite E9'. cbn [rbind]. exists (mkT [B * Q; S] dT), d9.
    split; [reflexivity|]. split; [reflexivity|]. split; [|exact E9'].
    intros b q s Hb Hq' Hs. cbn [data].
    replace ((b * Q + q) * S + s) with (b * Q * S + q * S + s) by lia.
    rewrite (EnT b q s Hb Hq' Hs). f_equal. lia. }
  destruct H9 as (attnT & d9 & E9' & HsT & HT & Esm9).
  rewrite E9' in E9. injection E9 as <-.
  cbn [fa_attn data] in E.
  eexists. eexists. exists contextT, sim, attnT. eexists. eexists.
  split; [exact E8|]. split; [exact E9'|]. split; [exact E|].
  cbn [fa_context fa_attn shape data].
  split; [exact ET|]. split; [exact Em|]. split; [exact Hsim|].
  split; [rewrite <- (@Softmax_forward_2d R _ (mkT [B * S; Q] (data sim)) (B * S) Q eq_refl); exact Esm8|].
  split; [reflexivity|].
  split.
  { intros b s Hb Hs.
    apply (@softmax_rowwise R _ (mkT [B * S; Q] (data sim)) (B * S) Q d8 (b * S + s)
             eq_refl Esm8 (flat2_lt Hb Hs)). }
  split; [exact HsT|]. split; [exact HT|].
  split; [rewrite <- (@Softmax_forward_2d R _ (scale attnT gamma1) (B * Q) S HsT); exact Esm9|].
  split; [reflexivity|]. split; [|reflexivity].
  intros b q Hb Hq'.
  apply (@softmax_rowwise R _ (scale attnT gamma1) (B * Q) S d9 (b * Q + q)
           HsT Esm9 (flat2_lt Hb Hq')).
Qed.

(** C2 at a query [2 x 3 x 5] and a context [2 x 3 x 2 x 2] of zeros. *)
Lemma C2_softmax_axes_witness :
  let query := zeros [2; 3; 5] in
  let context := zeros [2; 3; 2; 2] in
  exists l8 l9 contextT sim attnT wc am,
    func_attention_eq8 query context = Ok l8 /\
    func_attention_eq9 query context 1%R = Ok l9 /\
    func_attention query context 1%R = Ok (wc, am) /\
    transpose12 (fa_context l8) = Ok contextT /\
    bmm contextT query = Ok sim /\
    shape sim = [2; 2 * 2; 5] /\
    softmax_dim 1 (mkT [2 * (2 * 2); 5] (data sim)) = Ok (fa_attn l8) /\
    shape (fa_attn l8) = [2 * (2 * 2); 5] /\
    (forall b s, b < 2 -> s < 2 * 2 ->
       Softmax_forward nn_Softmax (mkT [1; 5] (row (data sim) 5 (b * (2 * 2) + s)))
       = Ok (mkT [1; 5] (row (data (fa_attn l8)) 5 (b * (2 * 2) + s)))) /\
    shape attnT = [2 * 5; 2 * 2] /\
    (forall b q s, b < 2 -> q < 5 -> s < 2 * 2 ->
       nth ((b * 5 + q) * (2 * 2) + s) (data attnT) 0%R
       = nth ((b * (2 * 2) + s) * 5 + q) (data (fa_attn l8)) 0%R) /\
    softmax_dim 1 (scale attnT 1%R) = Ok (fa_attn l9) /\
    shape (fa_attn l9) = [2 * 5; 2 * 2] /\
    (forall b q, b < 2 -> q < 5 ->
       Softmax_forward nn_Softmax
         (mkT [1; 2 * 2] (row (data (scale attnT 1%R)) (2 * 2) (b * 5 + q)))
       = Ok (mkT [1; 2 * 2] (row (data (fa_attn l9)) (2 * 2) (b * 5 + q)))) /\
    data am = data (fa_attn l9).
Proof.
  intros query context.
  apply (@C2_softmax_axes query context 1%R 2 3 5 2 2);
    [reflexivity | reflexivity | lia | lia | lia].
Defined.

(** C2 as stated fails: with one source position and two query positions
    the first softmax gives each query position a weight below 1, so the
    first-stage weights do not sum to 1 along the S axis. *)
Lemma C2_first_softmax_not_over_S :
  ~ (forall query context B D Q ih iw l8,
       shape query = [B; D; Q] -> shape context = [B; D; ih; iw] ->
       func_attention_eq8 query context = Ok l8 ->
       forall b q, b < B -> q < Q ->
         axis_sum (data (fa_attn l8)) (b * (ih * iw) * Q + q) Q (ih * iw) = 1%R).
Proof.
  intros Hall.
  destruct (func_attention_eq8_spec (zeros [1; 1; 2]) (zeros [1; 1; 1; 1])
              (B := 1) (D := 1) (Q := 2) (ih := 1) (iw := 1))
    as (d & E & _ & St); [reflexivity | reflexivity | lia | lia | lia |].
  specialize (Hall (zeros [1; 1; 2]) (zeros [1; 1; 1; 1]) 1 1 2 1 1 _
              eq_refl eq_refl E 0 0).
  cbn [fa_attn data] in Hall.
  assert (H1 : axis_sum d 0 2 1 = 1%R) by (apply Hall; lia).
  destruct (St 0) as [P Sm]; [lia|].
  assert (S1 : axis_sum d 0 1 2 = 1%R) by (apply Sm; lia).
  pose proof (P 0 ltac:(lia)) as P0. pose proof (P 1 ltac:(lia)) as P1.
  unfold axis_sum, tab in H1, S1. cbn in H1, S1, P0, P1. lra.
Qed.

(** C4, as amended.  For a query [B x D x Q] and a context
    [B x D x ih x iw] with B, ih and iw positive, [func_attention]
    returns a weighted context of shape [B x D x Q] and an attention map
    of shape [B x Q x ih x iw]: its second extent is the query length. *)
Theorem C4_attention_map_shape query context gamma1 B D Q ih iw :
  shape query = [B; D; Q] -> shape context = [B; D; ih; iw] ->
  0 < B -> 0 < ih -> 0 < iw ->
  exists wc am,
    func_attention query context gamma1 = Ok (wc, am) /\
    shape wc = [B; D; Q] /\
    shape am = [B; Q; ih; iw].
Proof.
  intros Hq Hc HB Hih Hiw.
  destruct (func_attention_spec query context gamma1 Hq Hc HB Hih Hiw)
    as (l9 & dwc & _ & E & _).
  eexists. eexists. split; [exact E|]. split; reflexivity.
Qed.

(** C4 at a query [2 x 3 x 5] and a context [2 x 3 x 2 x 2] of zeros. *)
Lemma C4_attention_map_shape_witness :
  exists wc am,
    func_attention (zeros [2; 3; 5]) (zeros [2; 3; 2; 2]) 1%R = Ok (wc, am) /\
    shape wc = [2; 3; 5] /\
    shape am = [2; 5; 2; 2].
Proof.
  apply (@C4_attention_map_shape (zeros [2; 3; 5]) (zeros [2; 3; 2; 2]) 1%R 2 3 5 2 2);
    [reflexivity | reflexivity | lia | lia | lia].
Defined.

(** C4 as stated fails: for a query of length 2 and a 1 x 1 context the
    map returned has shape [1 x 2 x 1 x 1], not [1 x 1 x 1 x 1]. *)
Lemma C4_map_is_not_B_S_ih_iw :
  ~ (forall query context gamma1 B D Q ih iw wc am,
       shape query = [B; D; Q] -> shape context = [B; D; ih; iw] ->
       func_attention query context gamma1 = Ok (wc, am) ->
       shape am = [B; ih * iw; ih; iw]).
Proof.
  intros Hall.
  destruct (func_attention_spec (zeros [1; 1; 2]) (zeros [1; 1; 1; 1]) 1%R
              (B := 1) (D := 1) (Q := 2) (ih := 1) (iw := 1))
    as (l9 & dwc & _ & E & _); [reflexivity | reflexivity | lia | lia | lia |].
  specialize (Hall (zeros [1; 1; 2]) (zeros [1; 1; 1; 1]) 1%R 1 1 2 1 1 _ _
              eq_refl eq_refl E).
  discriminate Hall.
Qed.

(** ** func_attention: the scaling by gamma1 *)

Lemma nth_scale (l : list R) g i :
  nth i (map (fun x => (x * g)%R) l) 0%R = (nth i l 0 * g)%R.
Proof.
  destruct (Nat.lt_ge_cases i (length l)) as [Hi|Hi].
  - rewrite nth_indep with (d' := (0 * g)%R) by now rewrite length_map.
    apply (map_nth (fun x => (x * g)%R)).
  - rewrite !nth_overflow by (try rewrite length_map; lia). lra.
Qed.

Lemma sharpen_rows (attn : tensor R) r c g :
  shape attn = [r; c] ->
  exists d, sharpen attn g = Ok (mkT [r; c] d) /\
    forall i, i < r ->
      row d c i =
      tab c (fun j => (exp (nth (i * c + j) (data attn) 0 * g)
                       / ssum (tab c (fun j' => exp (nth (i * c + j') (data attn) 0 * g))))%R).
Proof.
  intros Hs. unfold sharpen.
  destruct (@softmax_2d_entry R _ (scale attn g) r c Hs) as (d & E & L & En).
  exists d. split; [exact E|]. intros i Hi. unfold row.
  cbn [szero sdiv sexp R_scalar] in En.
  assert (Hsc : forall j,
            nth (i * c + j) (data (scale attn g)) 0%R
            = (nth (i * c + j) (data attn) 0 * g)%R).
  { intros j. unfold scale, tmap. cbn [data smul R_scalar]. apply nth_scale. }
  apply tab_ext. intros j Hj.
  rewrite (En i j Hi Hj), Hsc. f_equal.
  apply ssum_tab_ext. intros j' Hj'. now rewrite Hsc.
Qed.

(** ** forward: the word branch and the sentence branch *)

Lemma softmax_row_masked (bit : nat -> bool) (r : nat -> R) (x d : nat -> ext) c :
  (forall j, j < c -> x j = if bit j then NInf else Fin (r j)) ->
  (forall j, j < c -> d j = sdiv (sexp (x j)) (ssum (tab c (fun j' => sexp (x j'))))) ->
  masked_softmax_row bit d c.
Proof.
  intros Hx Hd.
  assert (Hf : forall j, j < c -> fin_or_ninf (x j)).
  { intros j Hj. rewrite (Hx j Hj). destruct (bit j); exact I. }
  assert (Hb : forall j, j < c -> (x j = NInf <-> bit j = true)).
  { intros j Hj. rewrite (Hx j Hj). destruct (bit j); split; congruence. }
  destruct (softmax_row_ext x d Hf Hd) as [Hall Hsome]. split.
  - intros Hm. apply Hall. intros j Hj. apply Hb; auto.
  - intros (k & Hk & Hbk).
    destruct Hsome as (Z & P & S).
    { exists k. split; [assumption|]. intros E. apply Hb in E; congruence. }
    split; [|split; [|exact S]].
    + intros j Hj E. apply Z; [assumption|]. now apply Hb.
    + intros j Hj E. apply P; [assumption|]. intros N. apply Hb in N; congruence.
Qed.

Lemma built_init idf cdf wc wv wl bl : built idf cdf (init idf cdf wc wv wl bl).
Proof. repeat split. Qed.

Lemma forward_eq2_spec self input context B D C H W S :
  built D C self -> mask_fits B S self ->
  shape input = [B; D; H; W] -> shape context = [B; C; S] ->
  0 < B -> 0 < H -> 0 < W -> 0 < S ->
  exists ds d,
    forward_eq2 self input context =
      Ok {| fw_idf := D; fw_ih := H; fw_iw := W; fw_queryL := H * W;
            fw_batch_size := B; fw_sourceL := S;
            fw_sourceT := mkT [B; D; S] ds;
            fw_attn := mkT [B * (H * W); S] d |} /\
    length d = B * (H * W) * S /\
    forall i, i < B * (H * W) ->
      masked_softmax_row (repeated_mask_bit self (H * W) S i)
        (fun s => nth (i * S + s) d szero) S.
Proof.
  intros (Hci & Hco & _ & _ & _ & _ & Hsm) Hmask Hin Hctx HB HH HW HS.
  unfold forward_eq2, size. rewrite Hin, Hctx. cbn [nth_error rbind].
  rewrite (@view_infer _ input _ (B * (H * W)) D);
    [ | reflexivity | cbn; lia | nia | rewrite Hin; cbn; nia ].
  cbn [rbind map resolve].
  op_step (@transpose12_shape R _ (mkT [B; D; H * W] (data input)) B D (H * W) eq_refl).
  unfold unsqueeze. rewrite Hctx.
  cbn [length Nat.leb firstn skipn app rbind].
  op_step (@Conv2d_forward_shape (conv_context self) (mkT [B; C; S; 1] (data context))
          B C S 1 eq_refl (eq_sym Hci) HS Nat.lt_0_1).
  rewrite Hco. unfold squeeze. cbn [shape data nth_error firstn skipn app rbind].
  op_step (@bmm_shape R _ (mkT [B; H * W; D] d) (mkT [B; D; S] d0) B (H * W) D S
          eq_refl eq_refl).
  rewrite view_exact; [ | reflexivity | cbn; nia ].
  cbn [rbind map resolve data]. rewrite Hsm.
  set (x := tmap Fin (mkT [B * (H * W); S] d1)).
  assert (Hxs : shape x = [B * (H * W); S]) by reflexivity.
  assert (Hxd : forall i, nth i (data x) szero = Fin (nth i d1 0%R)).
  { intros i. unfold x, tmap. cbn [data szero ext_scalar].
    change (Fin 0) with (Fin 0%R). apply map_nth. }
  assert (Hmasked : exists y,
    match mask self with
    | Some self_mask =>
        rbind (trepeat false self_mask [H * W; 1]) (fun m => masked_fill x m NInf)
    | None => Ok x
    end = Ok y /\ shape y = [B * (H * W); S] /\
    forall i s, i < B * (H * W) -> s < S ->
      nth (i * S + s) (data y) szero =
      if repeated_mask_bit self (H * W) S i s then NInf
      else Fin (nth (i * S + s) d1 0%R)).
  { unfold mask_fits, repeated_mask_bit in *. destruct (mask self) as [m|].
    - rewrite (trepeat_rows false m (H * W) Hmask). cbn [rbind].
      rewrite (Nat.mul_comm (H * W) B).
      erewrite masked_fill_same; [ | exact Hxs | reflexivity ].
      eexists. split; [reflexivity|]. split; [reflexivity|].
      intros i s Hi Hs. cbn [data numel]. rewrite Nat.mul_1_r.
      rewrite nth_tab by now apply flat2_lt.
      cbn [data]. rewrite Hxd. reflexivity.
    - exists x. split; [reflexivity|]. split; [exact Hxs|].
      intros i s _ _. apply Hxd. }
  destruct Hmasked as (y & Ey & Hys & Hyd).
  rewrite Ey. cbn [rbind].
  destruct (@softmax_2d_entry ext _ y _ _ Hys) as (da & Ea & La & Ena).
  rewrite Ea. cbn [rbind]. exists d0, da. split; [reflexivity|]. split; [exact La|].
  intros i Hi.
  apply softmax_row_masked with
    (r := fun s => nth (i * S + s) d1 0%R)
    (x := fun s => nth (i * S + s) (data y) szero).
  - intros s Hs. now apply Hyd.
  - intros s Hs. now apply Ena.
Qed.

Lemma forward_words_spec self input context B D C H W S :
  built D C self -> mask_fits B S self ->
  shape input = [B; D; H; W] -> shape context = [B; C; S] ->
  0 < B -> 0 < H -> 0 < W -> 0 < S ->
  exists l dwc dwa,
    forward_eq2 self input context = Ok l /\
    forward_words self input context =
      Ok (l, mkT [B; D; H; W] dwc, mkT [B; S; H; W] dwa) /\
    fw_idf l = D /\ fw_ih l = H /\ fw_iw l = W /\ fw_batch_size l = B /\
    shape (fw_attn l) = [B * (H * W); S] /\
    (forall i, i < B * (H * W) ->
       masked_softmax_row (repeated_mask_bit self (H * W) S i)
         (fun s => nth (i * S + s) (data (fw_attn l)) szero) S) /\
    (forall b s q, b < B -> s < S -> q < H * W ->
       nth (b * S * (H * W) + s * (H * W) + q) dwa szero =
       nth ((b * (H * W) + q) * S + s) (data (fw_attn l)) szero).
Proof.
  intros Hb Hmask Hin Hctx HB HH HW HS.
  destruct (forward_eq2_spec input context Hb Hmask Hin Hctx HB HH HW HS) as (ds & d & E & L & Rows).
  unfold forward_words. rewrite E. eexists. 
  cbn [rbind fw_attn fw_batch_size fw_queryL fw_sourceL fw_ih fw_iw fw_sourceT fw_idf].
  rewrite view_exact; [ | reflexivity | cbn; nia ].
  cbn [rbind map resolve data].
  destruct (@transpose12_entry ext _ (mkT [B; H * W; S] d) B (H * W) S eq_refl)
    as (dT & ET & LT & EnT).
  rewrite ET. cbn [rbind].
  op_step (@bmm_shape ext _ (tmap Fin (mkT [B; D; S] ds)) (mkT [B; S; H * W] dT)
          B D S (H * W) eq_refl eq_refl).
  rewrite (@view_infer _ _ _ (B * (H * W)) D);
    [ | reflexivity | cbn; lia | nia | cbn; nia ].
  cbn [rbind map resolve data].
  rewrite (@view_infer _ _ _ (B * (H * W)) S);
    [ | reflexivity | cbn; lia | nia | cbn; nia ].
  cbn [rbind map resolve data].
  exists d0, dT. split; [reflexivity|]. split; [reflexivity|].
  repeat (split; [reflexivity|]). cbn [fw_attn data]. split; [exact Rows|].
  intros b s q Hb' Hs Hq. rewrite (EnT b s q Hb' Hs Hq). cbn [data].
  f_equal. lia.
Qed.

Lemma ssum_tab_nan n (f : nat -> ext) :
  0 < n -> (forall i, i < n -> f i = NaN) -> ssum (tab n f) = NaN.
Proof.
  intros Hn Hf. destruct n as [|n]; [lia|].
  rewrite tab_S. unfold ssum. cbn [fold_right sadd ext_scalar].
  now rewrite (Hf 0 Hn).
Qed.

Lemma forward_words_context_entries self input context B D C H W S :
  built D C self -> mask_fits B S self ->
  shape input = [B; D; H; W] -> shape context = [B; C; S] ->
  0 < B -> 0 < H -> 0 < W -> 0 < S ->
  exists l dwc dwa,
    forward_words self input context =
      Ok (l, mkT [B; D; H; W] dwc, mkT [B; S; H; W] dwa) /\
    shape (fw_sourceT l) = [B; D; S] /\
    (forall i, i < B * (H * W) ->
       masked_softmax_row (repeated_mask_bit self (H * W) S i)
         (fun s => nth (i * S + s) (data (fw_attn l)) szero) S) /\
    forall b c q, b < B -> c < D -> q < H * W ->
      nth (b * D * (H * W) + c * (H * W) + q) dwc szero =
      ssum (tab S (fun s =>
              smul (Fin (nth (b * D * S + c * S + s) (data (fw_sourceT l)) 0%R))
                   (nth ((b * (H * W) + q) * S + s) (data (fw_attn l)) szero))).
Proof.
  intros Hb Hmask Hin Hctx HB HH HW HS.
  destruct (forward_eq2_spec input context Hb Hmask Hin Hctx HB HH HW HS)
    as (ds & d & E & L & Rows).
  unfold forward_words. rewrite E. eexists.
  cbn [rbind fw_attn fw_batch_size fw_queryL fw_sourceL fw_ih fw_iw fw_sourceT fw_idf].
  rewrite view_exact; [ | reflexivity | cbn; nia ].
  cbn [rbind map resolve data].
  destruct (@transpose12_entry ext _ (mkT [B; H * W; S] d) B (H * W) S eq_refl)
    as (dT & ET & LT & EnT).
  rewrite ET. cbn [rbind].
  destruct (@bmm_entry ext _ (tmap Fin (mkT [B; D; S] ds)) (mkT [B; S; H * W] dT)
              B D S (H * W) eq_refl eq_refl) as (dwc & Ew & Lw & Enw).
  rewrite Ew. cbn [rbind].
  rewrite (@view_infer _ _ _ (B * (H * W)) D);
    [ | reflexivity | cbn; lia | nia | cbn; nia ].
  cbn [rbind map resolve data].
  rewrite (@view_infer _ _ _ (B * (H * W)) S);
    [ | reflexivity | cbn; lia | nia | cbn; nia ].
  cbn [rbind map resolve data shape].
  exists dwc, dT. split; [reflexivity|]. split; [reflexivity|]. split; [exact Rows|].
  intros b c q Hb' Hc Hq. rewrite (Enw b c q Hb' Hc Hq).
  apply f_equal. apply tab_ext. intros s Hs. cbn [data tmap shape].
  rewrite (EnT b s q Hb' Hs Hq). cbn [data].
  change szero with (Fin 0%R) at 1. rewrite (map_nth Fin).
  f_equal. f_equal. lia.
Qed.

Lemma forward_spec (w : world) input sentence context B D C H W S :
  built D C (this w) -> mask_fits B S (this w) ->
  shape input = [B; D; H; W] -> shape sentence = [B; 100] ->
  shape context = [B; C; S] ->
  0 < B -> 0 < H -> 0 < W -> 0 < S ->
  exists l wc wa dws dsa w',
    forward_words (this w) input context = Ok (l, wc, wa) /\
    forward input sentence context w =
      (w', Ok {| weightedContext := wc;
                 weightedSentence := mkT [B; D; H; W] dws;
                 word_attn := wa;
                 sent_att := mkT [B; D; H; W] dsa |}) /\
    this w' = this w /\
    shape wc = [B; D; H; W] /\ shape wa = [B; S; H; W] /\
    stochastic dsa B D (H * W).
Proof.
  intros Hb Hmask Hin Hsent Hctx HB HH HW HS.
  destruct (forward_words_spec input context Hb Hmask Hin Hctx HB HH HW HS)
    as (l & dwc & dwa & _ & E & Hidf & Hih & Hiw & Hbs & _).
  destruct Hb as (_ & _ & Hvi & Hvo & Hli & Hlo & _).
  exists l, (mkT [B; D; H; W] dwc), (mkT [B; S; H; W] dwa).
  unfold forward, mbind, get_self, lift, print, mret. rewrite E.
  rewrite Hidf, Hih, Hiw, Hbs.
  assert (Hsent' : shape sentence = [B; in_features (linear (this w))])
    by now rewrite Hli.
  destruct (Linear_forward_shape (linear (this w)) sentence Hsent') as (d1 & E1 & L1).
  rewrite E1, Hlo. clear E1. cbn [shape].
  rewrite view_exact; [ | reflexivity | cbn; lia ].
  cbn [map resolve data shape].
  destruct (@trepeat_shape R 0%R (mkT [B; D; 1; 1] d1) [1; 1; H; W] [B; D; H; W])
    as (d2 & E2 & L2); [cbn; lia | cbn; f_equal; [lia | f_equal; [lia | f_equal; [lia | f_equal; lia]]] |].
  rewrite E2. clear E2. cbn [shape].
  destruct (@tmul_same R _ input (mkT [B; D; H; W] d2) [B; D; H; W] Hin eq_refl)
    as (d3 & E3 & L3).
  rewrite E3. clear E3. cbn [shape].
  destruct (@Conv2d_forward_shape (conv_sentence_vis (this w)) (mkT [B; D; H; W] d3)
              B D H W eq_refl (eq_sym Hvi) HH HW) as (d4 & E4 & L4).
  rewrite E4, Hvo. clear E4. cbn [shape].
  destruct (@softmax_4d (mkT [B; D; H; W] d4) B D H W eq_refl) as (d5 & E5 & L5 & St).
  rewrite E5. clear E5. cbn [shape].
  destruct (@tmul_same R _ (mkT [B; D; H; W] d2) (mkT [B; D; H; W] d5) [B; D; H; W]
              eq_refl eq_refl) as (d6 & E6 & L6).
  rewrite E6. clear E6. cbn [shape].
  exists d6, d5. eexists. split; [reflexivity|]. split; [reflexivity|].
  cbn [this]. auto.
Qed.

(** ** forward: masking and shapes *)

Lemma repeated_mask_bit_tiled self m B S Q i s :
  mask self = Some m -> shape m = [B; S] -> i < Q * B -> s < S ->
  repeated_mask_bit self Q S i s = nth (i mod B * S + s) (data m) false.
Proof.
  intros Hm Hs Hi Hlt. unfold repeated_mask_bit.
  rewrite Hm, (trepeat_rows false m Q Hs). cbn [data].
  rewrite nth_tab by now apply flat2_lt.
  replace ((i * S + s) / S) with i by (apply (Nat.div_unique _ _ _ s); lia).
  replace ((i * S + s) mod S) with s by (apply (Nat.mod_unique _ _ i); lia).
  reflexivity.
Qed.

(** C1 at its failing input.  [mask.repeat(queryL, 1)] tiles the mask, so
    row [i] of the flattened similarity, which belongs to batch element
    [i / queryL], is masked by mask row [i mod batch].  With two batch
    elements, two query positions and the mask [[T, F], [F, T]], the
    second query position of batch element 0 puts weight 1 on source
    position 0, which the mask of batch element 0 excludes, and weight 0
    on source position 1, which it allows. *)
Theorem C1_mask_rows_tiled :
  (forall self m B S Q i s,
     mask self = Some m -> shape m = [B; S] -> i < Q * B -> s < S ->
     repeated_mask_bit self Q S i s = nth (i mod B * S + s) (data m) false) /\
  nth (0 * 2 + 0) (data two_by_two_mask) false = true /\
  nth (0 * 2 + 1) (data two_by_two_mask) false = false /\
  exists l wc wa,
    forward_words masked_layer (zeros [2; 1; 1; 2]) (zeros [2; 1; 2]) = Ok (l, wc, wa) /\
    shape wa = [2; 2; 1; 2] /\
    nth (0 * 2 * 2 + 0 * 2 + 1) (data wa) szero = Fin 1 /\
    nth (0 * 2 * 2 + 1 * 2 + 1) (data wa) szero = Fin 0.
Proof.
  split; [exact repeated_mask_bit_tiled|]. split; [reflexivity|]. split; [reflexivity|].
  destruct (@forward_words_spec masked_layer (zeros [2; 1; 1; 2]) (zeros [2; 1; 2])
              2 1 1 1 2 2) as (l & dwc & dwa & _ & E & _ & _ & _ & _ & _ & Rows & Tr);
    [repeat split | reflexivity | reflexivity | reflexivity | lia | lia | lia | lia |].
  exists l, (mkT [2; 1; 1; 2] dwc), (mkT [2; 2; 1; 2] dwa).
  split; [exact E|]. split; [reflexivity|]. cbn [data].
  pose proof (Tr 0 0 1 ltac:(lia) ltac:(lia) ltac:(lia)) as T1.
  pose proof (Tr 0 1 1 ltac:(lia) ltac:(lia) ltac:(lia)) as T2.
  change (nth (0 * 2 * 2 + 0 * 2 + 1) dwa szero
          = nth (1 * 2 + 0) (data (fw_attn l)) szero) in T1.
  change (nth (0 * 2 * 2 + 1 * 2 + 1) dwa szero
          = nth (1 * 2 + 1) (data (fw_attn l)) szero) in T2.
  rewrite T1, T2.
  destruct (Rows 1 ltac:(lia)) as [_ Hsome].
  destruct Hsome as (Z & P & Sm); [exists 0; split; [lia | reflexivity]|].
  pose proof (Z 1 ltac:(lia) eq_refl) as Z1.
  destruct (P 0 ltac:(lia) eq_refl) as (p & Ep & _).
  unfold tab in Sm. cbn [seq map ssum fold_right] in Sm.
  rewrite Z1, Ep in Sm. rewrite Z1, Ep. split; [|reflexivity].
  cbn in Sm. injection Sm as Sm. f_equal. lra.
Qed.

(** C3, as amended.  With a mask of shape [B x S] stored, take a batch
    element [b] and a query position [q]: row [b * queryL + q] of the
    flattened similarity is masked by row [(b * queryL + q) mod B] of the
    stored mask.  When every position of that mask row is set, the
    softmax of Eq. (2) gives NaN at every source position of the row:
    there is no fallback.  The NaN reaches the outputs: [word_attn] at
    [(b, s, q)] for every source position [s], and [weightedContext] at
    [(b, c, q)] for every channel [c]. *)
Theorem C3_fully_masked_row_is_nan self m input context B D C H W S b q :
  built D C self -> mask self = Some m -> shape m = [B; S] ->
  shape input = [B; D; H; W] -> shape context = [B; C; S] ->
  0 < B -> 0 < H -> 0 < W -> 0 < S ->
  b < B -> q < H * W ->
  (forall s, s < S ->
     nth ((b * (H * W) + q) mod B * S + s) (data m) false = true) ->
  exists l wc wa,
    forward_words self input context = Ok (l, wc, wa) /\
    shape (fw_attn l) = [B * (H * W); S] /\
    shape wa = [B; S; H; W] /\
    shape wc = [B; D; H; W] /\
    (forall s, s < S ->
       nth ((b * (H * W) + q) * S + s) (data (fw_attn l)) szero = NaN /\
       nth (b * S * (H * W) + s * (H * W) + q) (data wa) szero = NaN) /\
    (forall c, c < D ->
       nth (b * D * (H * W) + c * (H * W) + q) (data wc) szero = NaN).
Proof.
  intros Hb Hm Hms Hin Hctx HB HH HW HS Hb' Hq Hrow.
  assert (Hfit : mask_fits B S self) by (unfold mask_fits; now rewrite Hm).
  destruct (forward_words_spec input context Hb Hfit Hin Hctx HB HH HW HS)
    as (l & dwc & dwa & _ & Ew & _ & _ & _ & _ & Hs & Rows & Tr).
  destruct (forward_words_context_entries input context Hb Hfit Hin Hctx HB HH HW HS)
    as (l' & dwc' & dwa' & Ew' & _ & _ & En).
  rewrite Ew in Ew'. injection Ew'; intros; subst l' dwc' dwa'.
  exists l, (mkT [B; D; H; W] dwc), (mkT [B; S; H; W] dwa).
  split; [exact Ew|]. split; [exact Hs|]. split; [reflexivity|]. split; [reflexivity|].
  cbn [data].
  set (i := b * (H * W) + q) in *.
  assert (Hi : i < B * (H * W)) by exact (flat2_lt Hb' Hq).
  assert (Hbits : forall s, s < S -> repeated_mask_bit self (H * W) S i s = true).
  { intros s Hs'.
    rewrite (@repeated_mask_bit_tiled self m B S (H * W) i s Hm Hms) by lia.
    now apply Hrow. }
  destruct (Rows i Hi) as [Hall _].
  assert (Hnan : forall s, s < S -> nth (i * S + s) (data (fw_attn l)) szero = NaN)
    by exact (Hall Hbits).
  split.
  - intros s Hs'. split; [now apply Hnan|].
    rewrite (Tr b s q Hb' Hs' Hq). now apply Hnan.
  - intros c Hc. rewrite (En b c q Hb' Hc Hq).
    apply ssum_tab_nan; [assumption|].
    intros s Hs'. fold i. now rewrite (Hnan s Hs').
Qed.

(** C3 on the layer whose single mask row is all-true, one query position
    and two source positions. *)
Lemma C3_fully_masked_row_is_nan_witness :
  exists l wc wa,
    forward_words fully_masked_layer (zeros [1; 1; 1; 1]) (zeros [1; 1; 2])
    = Ok (l, wc, wa) /\
    shape (fw_attn l) = [1 * (1 * 1); 2] /\
    shape wa = [1; 2; 1; 1] /\
    shape wc = [1; 1; 1; 1] /\
    (forall s, s < 2 ->
       nth ((0 * (1 * 1) + 0) * 2 + s) (data (fw_attn l)) szero = NaN /\
       nth (0 * 2 * (1 * 1) + s * (1 * 1) + 0) (data wa) szero = NaN) /\
    (forall c, c < 1 ->
       nth (0 * 1 * (1 * 1) + c * (1 * 1) + 0) (data wc) szero = NaN).
Proof.
  apply (@C3_fully_masked_row_is_nan fully_masked_layer (mkT [1; 2] [true; true])
           (zeros [1; 1; 1; 1]) (zeros [1; 1; 2]) 1 1 1 1 1 2 0 0);
    [repeat split | reflexivity | reflexivity | reflexivity | reflexivity
    | lia | lia | lia | lia | lia | lia |].
  intros s Hs. destruct s as [|[|s]]; [reflexivity | reflexivity | lia].
Defined.

(** C3 as stated fails: with the single mask row all-true the
    distribution of the only query position is NaN at both source
    positions. *)
Lemma C3_all_true_mask_gives_nan :
  exists l,
    forward_eq2 fully_masked_layer (zeros [1; 1; 1; 1]) (zeros [1; 1; 2]) = Ok l /\
    nth 0 (data (fw_attn l)) szero = NaN /\
    nth 1 (data (fw_attn l)) szero = NaN.
Proof.
  destruct (@forward_words_spec fully_masked_layer (zeros [1; 1; 1; 1]) (zeros [1; 1; 2])
              1 1 1 1 1 2) as (l & _ & _ & E & _ & _ & _ & _ & _ & _ & Rows & _);
    [repeat split | reflexivity | reflexivity | reflexivity | lia | lia | lia | lia |].
  exists l. split; [exact E|].
  destruct (Rows 0 ltac:(lia)) as [Hall _].
  assert (Hbits : forall s, s < 2 ->
            repeated_mask_bit fully_masked_layer (1 * 1) 2 0 s = true).
  { intros s Hs. destruct s as [|[|s]]; [reflexivity | reflexivity | lia]. }
  split; [exact (Hall Hbits 0 ltac:(lia)) | exact (Hall Hbits 1 ltac:(lia))].
Qed.

(** C5.  On a valid call (a layer built for [D] query channels and [C]
    context channels, a mask that is absent or of shape [B x S], inputs
    [B x D x H x W], [B x 100] and [B x C x S] with positive B, H, W, S)
    [forward] returns: [weightedContext] of shape [B x D x H x W],
    [word_attn] of shape [B x S x H x W], and [sent_att] and
    [weightedSentence] of the shape of the input. *)
Theorem C5_forward_shapes (w : world) input sentence context B D C H W S :
  built D C (this w) -> mask_fits B S (this w) ->
  shape input = [B; D; H; W] -> shape sentence = [B; 100] ->
  shape context = [B; C; S] ->
  0 < B -> 0 < H -> 0 < W -> 0 < S ->
  exists o w',
    forward input sentence context w = (w', Ok o) /\
    shape (weightedContext o) = [B; D; H; W] /\
    shape (word_attn o) = [B; S; H; W] /\
    shape (sent_att o) = shape input /\
    shape (weightedSentence o) = shape input.
Proof.
  intros Hb Hmask Hin Hsent Hctx HB HH HW HS.
  destruct (forward_spec w input sentence context Hb Hmask Hin Hsent Hctx HB HH HW HS)
    as (l & wc & wa & dws & dsa & w' & _ & E & _ & Hwc & Hwa & _).
  eexists. exists w'. split; [exact E|].
  cbn [weightedContext word_attn sent_att weightedSentence shape].
  rewrite Hin. auto.
Qed.

(** C5 on the end-to-end example of the specification: batch 2, D = 4,
    C = 6, S = 5, H = W = 3. *)
Lemma C5_forward_shapes_witness :
  exists o w',
    forward (zeros [2; 4; 3; 3]) (zeros [2; 100]) (zeros [2; 6; 5])
      {| this := init 4 6 [] [] [] []; stdout := [] |} = (w', Ok o) /\
    shape (weightedContext o) = [2; 4; 3; 3] /\
    shape (word_attn o) = [2; 5; 3; 3] /\
    shape (sent_att o) = shape (zeros [2; 4; 3; 3]) /\
    shape (weightedSentence o) = shape (zeros [2; 4; 3; 3]).
Proof.
  apply (@C5_forward_shapes {| this := init 4 6 [] [] [] []; stdout := [] |}
           (zeros [2; 4; 3; 3]) (zeros [2; 100]) (zeros [2; 6; 5]) 2 4 6 3 3 5);
    [repeat split | exact I | reflexivity | reflexivity | reflexivity
    | lia | lia | lia | lia].
Defined.

(** ** The instance across calls *)

Lemma keeps_mret {A} (a : A) : keeps_instance (mret a).
Proof. intros w. reflexivity. Qed.

Lemma keeps_lift {A} (r : result A) : keeps_instance (lift r).
Proof. intros w. reflexivity. Qed.

Lemma keeps_get_self : keeps_instance get_self.
Proof. intros w. reflexivity. Qed.

Lemma keeps_print l : keeps_instance (print l).
Proof. intros w. reflexivity. Qed.

Lemma keeps_mbind {A B} (m : M A) (k : A -> M B) :
  keeps_instance m -> (forall a, keeps_instance (k a)) -> keeps_instance (mbind m k).
Proof.
  intros Hm Hk w. unfold mbind. specialize (Hm w).
  destruct (m w) as [w1 [a|e]]; cbn [fst] in *.
  - now rewrite Hk.
  - exact Hm.
Qed.

Ltac method_steps keeps_bind keeps_l keeps_g keeps_p keeps_r :=
  repeat first
    [ apply keeps_r
    | apply keeps_l
    | apply keeps_g
    | apply keeps_p
    | apply keeps_bind; [ | intros ]
    | match goal with
      | x : (_ * _)%type |- _ => destruct x
      end ].

Lemma forward_keeps_instance input sentence context :
  keeps_instance (forward input sentence context).
Proof.
  unfold forward.
  method_steps @keeps_mbind @keeps_lift keeps_get_self keeps_print @keeps_mret.
Qed.

(** C8.  [forward] leaves the mask and the learned parameters of the
    instance unchanged, on success and on failure.  The mask is either
    unset or set to a tensor; a new instance has it unset; [applyMask]
    stores its argument ([None] clears the mask) and touches nothing
    else; and a call that changes the mask is a call of [applyMask]. *)
Theorem C8_mask_and_parameters_frame :
  (forall w input sentence context,
     let w' := fst (forward input sentence context w) in
     mask (this w') = mask (this w) /\
     conv_context (this w') = conv_context (this w) /\
     conv_sentence_vis (this w') = conv_sentence_vis (this w) /\
     linear (this w') = linear (this w)) /\
  (forall self, mask self = None \/ exists m, mask self = Some m) /\
  (forall idf cdf wc wv wl bl, mask (init idf cdf wc wv wl bl) = None) /\
  (forall w m,
     let w' := fst (applyMask m w) in
     mask (this w') = m /\
     conv_context (this w') = conv_context (this w) /\
     conv_sentence_vis (this w') = conv_sentence_vis (this w) /\
     linear (this w') = linear (this w)) /\
  (forall w c, mask (this (step w c)) <> mask (this w) ->
     exists m, c = CallApplyMask m).
Proof.
  split; [|split; [|split; [|split]]].
  - intros w input sentence context w'. subst w'.
    rewrite (forward_keeps_instance input sentence context w). auto.
  - intros self. destruct (mask self) as [m|]; [right; now exists m | now left].
  - reflexivity.
  - intros w m. cbn. auto.
  - intros w [m|input sentence context] Hc.
    + now exists m.
    + cbn [step] in Hc.
      rewrite (forward_keeps_instance input sentence context w) in Hc.
      contradiction.
Qed.

(** ** forward: what makes it raise *)


Lemma view_infer_inv {A} (t t' : tensor A) ds :
  length (filter is_infer ds) = 1 -> view t ds = Ok t' ->
  0 < known_numel ds /\
  numel (shape t) = numel (shape t) / known_numel ds * known_numel ds /\
  t' = mkT (map (resolve (numel (shape t) / known_numel ds)) ds) (data t).
Proof.
  intros Hi. unfold view. rewrite Hi.
  destruct (Nat.ltb_spec 0 (known_numel ds)) as [Hk|Hk]; [|discriminate].
  destruct (Nat.eqb_spec (numel (shape t) mod known_numel ds) 0) as [Hm|Hm];
    [|discriminate].
  cbn [andb]. intros [= <-]. split; [assumption|]. split; [|reflexivity].
  pose proof (Nat.div_mod_eq (numel (shape t)) (known_numel ds)). lia.
Qed.


Lemma bmm_inv {A} `{Scalar A} (a b t : tensor A) ba n m bb m' p :
  shape a = [ba; n; m] -> shape b = [bb; m'; p] -> bmm a b = Ok t ->
  ba = bb /\ m = m'.
Proof.
  intros Ha Hb. unfold bmm. rewrite Ha, Hb.
  destruct (Nat.eqb_spec ba bb); [|discriminate].
  destruct (Nat.eqb_spec m m'); [|discriminate]. auto.
Qed.








Lemma mul_cancel_pos a b k : 0 < k -> a * k = b * k -> a = b.
Proof. intros Hk E. apply Nat.mul_cancel_r in E; lia. Qed.










(** ** func_attention, entry by entry *)

Lemma func_attention_entries query context gamma1 B D Q ih iw :
  shape query = [B; D; Q] -> shape context = [B; D; ih; iw] ->
  0 < B -> 0 < ih -> 0 < iw ->
  let S := ih * iw in
  exists d8 d9 dwc,
    func_attention_eq8 query context =
      Ok {| fa_batch_size := B; fa_queryL := Q; fa_ih := ih; fa_iw := iw;
            fa_sourceL := S; fa_context := mkT [B; D; S] (data context);
            fa_attn := mkT [B * S; Q] d8 |} /\
    func_attention_eq9 query context gamma1 =
      Ok {| fa_batch_size := B; fa_queryL := Q; fa_ih := ih; fa_iw := iw;
            fa_sourceL := S; fa_context := mkT [B; D; S] (data context);
            fa_attn := mkT [B * Q; S] d9 |} /\
    func_attention query context gamma1 =
      Ok (mkT [B; D; Q] dwc, mkT [B; Q; ih; iw] d9) /\
    (forall b s q, b < B -> s < S -> q < Q ->
       nth ((b * S + s) * Q + q) d8 0%R =
       (exp (similarity query context D Q S b s q)
        / ssum (tab Q (fun q' => exp (similarity query context D Q S b s q'))))%R) /\
    (forall b q s, b < B -> q < Q -> s < S ->
       nth ((b * Q + q) * S + s) d9 0%R =
       (exp (nth ((b * S + s) * Q + q) d8 0 * gamma1)
        / ssum (tab S (fun s' => exp (nth ((b * S + s') * Q + q) d8 0 * gamma1))))%R) /\
    (forall b d q, b < B -> d < D -> q < Q ->
       nth (b * D * Q + d * Q + q) dwc 0%R =
       ssum (tab S (fun s =>
               (nth (b * D * S + d * S + s) (data context) 0
                * nth ((b * Q + q) * S + s) d9 0)%R))) /\
    rows_stochastic d8 (B * S) Q /\ rows_stochastic d9 (B * Q) S.
Proof.
  intros Hq Hc HB Hih Hiw S.
  assert (HS : 0 < S) by (unfold S; nia).
  (* Eq. (7) and Eq. (8) *)
  assert (H8 : exists d8,
    func_attention_eq8 query context =
      Ok {| fa_batch_size := B; fa_queryL := Q; fa_ih := ih; fa_iw := iw;
            fa_sourceL := S; fa_context := mkT [B; D; S] (data context);
            fa_attn := mkT [B * S; Q] d8 |} /\
    (forall b s q, b < B -> s < S -> q < Q ->
       nth ((b * S + s) * Q + q) d8 0%R =
       (exp (similarity query context D Q S b s q)
        / ssum (tab Q (fun q' => exp (similarity query context D Q S b s q'))))%R) /\
    rows_stochastic d8 (B * S) Q).
  { unfold func_attention_eq8, size. rewrite Hq, Hc. cbn [nth_error rbind]. fold S.
    rewrite (@view_infer _ context _ (B * S) D);
      [ | reflexivity | cbn; lia | nia | rewrite Hc; unfold S; cbn; nia ].
    cbn [rbind map resolve].
    destruct (@transpose12_entry R _ (mkT [B; D; S] (data context)) B D S eq_refl)
      as (dT & ET & LT & EnT).
    cbn [szero R_scalar data] in EnT.
    rewrite ET. cbn [rbind].
    destruct (@bmm_entry R _ (mkT [B; S; D] dT) query B S D Q eq_refl Hq)
      as (dm & Em & Lm & Enm).
    cbn [szero smul sdiv sexp R_scalar data] in Enm.
    rewrite Em. cbn [rbind].
    rewrite view_exact; [ | reflexivity | cbn; nia ].
    cbn [rbind map resolve data].
    destruct (@softmax_2d_entry R _ (mkT [B * S; Q] dm) _ _ eq_refl) as (d8 & E8 & L8 & En8).
    cbn [szero sdiv sexp R_scalar data] in En8.
    destruct (@softmax_2d (mkT [B * S; Q] dm) _ _ eq_refl) as (d8' & E8' & _ & St8).
    rewrite E8 in E8'. injection E8' as <-.
    rewrite E8. cbn [rbind]. exists d8. split; [reflexivity|]. split; [|exact St8].
    assert (Hsim : forall b s q, b < B -> s < S -> q < Q ->
              nth ((b * S + s) * Q + q) dm 0%R = similarity query context D Q S b s q).
    { intros b s q Hb Hs Hq'.
      replace ((b * S + s) * Q + q) with (b * S * Q + s * Q + q) by lia.
      rewrite (Enm b s q Hb Hs Hq'). unfold similarity.
      apply ssum_tab_ext. intros k Hk.
      rewrite (EnT b s k Hb Hs Hk). reflexivity. }
    intros b s q Hb Hs Hq'.
    rewrite (En8 (b * S + s) q (flat2_lt Hb Hs) Hq').
    rewrite Hsim by assumption. f_equal.
    apply ssum_tab_ext. intros q' Hq''. now rewrite Hsim. }
  destruct H8 as (d8 & E8 & En8 & St8).
  (* Eq. (9) *)
  assert (H9 : exists d9,
    func_attention_eq9 query context gamma1 =
      Ok {| fa_batch_size := B; fa_queryL := Q; fa_ih := ih; fa_iw := iw;
            fa_sourceL := S; fa_context := mkT [B; D; S] (data context);
            fa_attn := mkT [B * Q; S] d9 |} /\
    (forall b q s, b < B -> q < Q -> s < S ->
       nth ((b * Q + q) * S + s) d9 0%R =
       (exp (nth ((b * S + s) * Q + q) d8 0 * gamma1)
        / ssum (tab S (fun s' => exp (nth ((b * S + s') * Q + q) d8 0 * gamma1))))%R) /\
    rows_stochastic d9 (B * Q) S).
  { unfold func_attention_eq9. rewrite E8.
    cbn [rbind fa_attn fa_batch_size fa_queryL fa_sourceL fa_ih fa_iw fa_context].
    rewrite view_exact; [ | reflexivity | cbn; nia ].
    cbn [rbind map resolve data].
    destruct (@transpose12_entry R _ (mkT [B; S; Q] d8) B S Q eq_refl)
      as (dT & ET & LT & EnT).
    cbn [szero R_scalar data] in EnT.
    rewrite ET. cbn [rbind].
    rewrite view_exact; [ | reflexivity | cbn; nia ].
    cbn [rbind map resolve data].
    destruct (@sharpen_rows (mkT [B * Q; S] dT) (B * Q) S gamma1 eq_refl)
      as (d9 & E9 & R9).
    destruct (@softmax_2d (scale (mkT [B * Q; S] dT) gamma1) _ _ eq_refl)
      as (d9' & E9' & _ & St9).
    unfold sharpen in E9. rewrite E9 in E9'. injection E9' as <-.
    unfold sharpen. rewrite E9. cbn [rbind]. exists d9.
    split; [reflexivity|]. split; [|exact St9].
    assert (HT : forall b q s, b < B -> q < Q -> s < S ->
              nth ((b * Q + q) * S + s) dT 0%R = nth ((b * S + s) * Q + q) d8 0%R).
    { intros b q s Hb Hq' Hs.
      replace ((b * Q + q) * S + s) with (b * Q * S + q * S + s) by lia.
      rewrite (EnT b q s Hb Hq' Hs). f_equal. lia. }
    intros b q s Hb Hq' Hs.
    pose proof (R9 (b * Q + q) (flat2_lt Hb Hq')) as Hrow.
    apply (f_equal (fun l => nth s l 0%R)) in Hrow.
    unfold row in Hrow. rewrite !nth_tab in Hrow by assumption.
    rewrite Hrow. cbn [data]. rewrite HT by assumption. f_equal.
    apply ssum_tab_ext. intros s' Hs'. now rewrite HT. }
  destruct H9 as (d9 & E9 & En9 & St9).
  exists d8, d9. unfold func_attention. rewrite E9.
  cbn [rbind fa_attn fa_batch_size fa_queryL fa_sourceL fa_ih fa_iw fa_context].
  rewrite view_exact; [ | reflexivity | cbn; nia ].
  cbn [rbind map resolve data].
  destruct (@transpose12_entry R _ (mkT [B; Q; S] d9) B Q S eq_refl)
    as (dT & ET & LT & EnT).
  cbn [szero R_scalar data] in EnT.
  rewrite ET. cbn [rbind].
  destruct (@bmm_entry R _ (mkT [B; D; S] (data context)) (mkT [B; S; Q] dT)
              B D S Q eq_refl eq_refl) as (dwc & Ew & Lw & Enw).
  cbn [szero smul R_scalar data] in Enw.
  rewrite Ew. cbn [rbind].
  rewrite (@view_infer _ _ _ (B * S) Q);
    [ | reflexivity | unfold S; cbn; lia | nia | unfold S; cbn; nia ].
  cbn [rbind map resolve data]. exists dwc.
  split; [exact E8|]. split; [reflexivity|]. split; [reflexivity|].
  split; [exact En8|]. split; [exact En9|]. split; [|split; assumption].
  intros b d q Hb Hd Hq'. rewrite (Enw b d q Hb Hd Hq').
  apply ssum_tab_ext. intros s Hs.
  rewrite (EnT b s q Hb Hs Hq').
  f_equal. f_equal. lia.
Qed.

(** ** func_attention: when it returns *)

(** [func_attention] reads its context through [size(2)], [size(3)], the
    number of elements and the buffer only. *)
Lemma func_attention_context_view query context context' gamma1 :
  nth_error (shape context) 2 = nth_error (shape context') 2 ->
  nth_error (shape context) 3 = nth_error (shape context') 3 ->
  numel (shape context) = numel (shape context') ->
  data context = data context' ->
  func_attention query context gamma1 = func_attention query context' gamma1.
Proof.
  intros H2 H3 Hn Hd.
  assert (E8 : func_attention_eq8 query context = func_attention_eq8 query context').
  { unfold func_attention_eq8, size. rewrite H2, H3.
    destruct (nth_error (shape query) 0); [|reflexivity].
    destruct (nth_error (shape query) 2); [|reflexivity].
    destruct (nth_error (shape context') 2); [|reflexivity].
    destruct (nth_error (shape context') 3); [|reflexivity].
    cbn [rbind]. unfold view. rewrite Hn, Hd. reflexivity. }
  unfold func_attention, func_attention_eq9. now rewrite E8.
Qed.

(** X5.  On a contiguous context (line 42 is a [view], which torch
    refuses on any other layout) [func_attention] returns exactly when
    the query's batch size and the context's spatial extents are positive
    and the context holds as many vectors per source position as the
    query expects, counted over the whole batch: [Bc * Dc = Bq * Dq].
    Batch sizes and channel counts are not compared one by one, because
    the context is re-viewed with the batch size of the query.
    Otherwise it raises, in [view] or in the first [bmm]. *)
Theorem X5_func_attention_returns_iff query context gamma1 Bq Dq Q Bc Dc ih iw :
  shape query = [Bq; Dq; Q] -> shape context = [Bc; Dc; ih; iw] ->
  contiguous context ->
  ((exists wc am, func_attention query context gamma1 = Ok (wc, am) /\
                  shape wc = [Bq; Dq; Q] /\ shape am = [Bq; Q; ih; iw])
   <-> (0 < Bq /\ 0 < ih /\ 0 < iw /\ Bc * Dc = Bq * Dq)) /\
  (forall e, func_attention query context gamma1 = Raise e ->
     e = RuntimeError "view" \/ e = RuntimeError "bmm").
Proof.
  intros Hq Hc _.
  assert (Hok : 0 < Bq /\ 0 < ih /\ 0 < iw /\ Bc * Dc = Bq * Dq ->
            exists wc am, func_attention query context gamma1 = Ok (wc, am) /\
                          shape wc = [Bq; Dq; Q] /\ shape am = [Bq; Q; ih; iw]).
  { intros (HB & Hih & Hiw & Hn).
    rewrite (@func_attention_context_view query context
               (mkT [Bq; Dq; ih; iw] (data context)) gamma1);
      [ | now rewrite Hc | now rewrite Hc | | reflexivity ].
    - destruct (@func_attention_spec query (mkT [Bq; Dq; ih; iw] (data context)) gamma1
                  Bq Dq Q ih iw Hq eq_refl HB Hih Hiw) as (l & dwc & _ & E & _).
      eexists. eexists. split; [exact E|]. split; reflexivity.
    - rewrite Hc. cbn [shape numel]. rewrite !Nat.mul_assoc, Hn. reflexivity. }
  (* what the first [view] and the first [bmm] need *)
  assert (Hsteps :
    (exists e, func_attention query context gamma1 = Raise e /\
               (e = RuntimeError "view" \/ e = RuntimeError "bmm")) \/
    (0 < Bq /\ 0 < ih /\ 0 < iw /\ Bc * Dc = Bq * Dq)).
  { unfold func_attention, func_attention_eq9, func_attention_eq8, size.
    rewrite Hq, Hc. cbn [nth_error rbind].
    destruct (view context [Dim Bq; Infer; Dim (ih * iw)]) as [c1|e] eqn:Ev.
    2:{ left. exists e. split; [reflexivity|]. left.
        unfold view in Ev. cbn [filter is_infer length] in Ev.
        destruct (andb _ _) in Ev; [discriminate|]. now injection Ev as <-. }
    apply view_infer_inv in Ev; [|reflexivity].
    destruct Ev as (Hk & Hn & ->).
    set (q := numel (shape context) / known_numel [Dim Bq; Infer; Dim (ih * iw)]) in *.
    rewrite Hc in Hn. unfold known_numel in Hk, Hn. cbn [fold_right numel] in Hk, Hn.
    cbn [rbind map resolve].
    destruct (@transpose12_shape R _ (mkT [Bq; q; ih * iw] (data context)) Bq q (ih * iw)
                eq_refl) as (dT & ET & _).
    rewrite ET. cbn [rbind].
    destruct (bmm (mkT [Bq; ih * iw; q] dT) query) as [a|e] eqn:Eb.
    2:{ left. exists e. split; [reflexivity|]. right.
        unfold bmm in Eb. rewrite Hq in Eb. cbn [shape] in Eb.
        destruct (andb _ _) in Eb; [discriminate|]. now injection Eb as <-. }
    right.
    apply bmm_inv with (ba := Bq) (n := ih * iw) (m := q) (bb := Bq) (m' := Dq) (p := Q)
      in Eb; [|reflexivity|assumption].
    destruct Eb as (_ & ->).
    assert (0 < Bq /\ 0 < ih * iw) as [HB HS] by nia.
    assert (0 < ih /\ 0 < iw) as [Hih Hiw] by nia.
    repeat (split; [assumption|]).
    apply mul_cancel_pos with (k := ih * iw); [assumption|].
    rewrite !Nat.mul_1_r in Hn. rewrite <- !Nat.mul_assoc. rewrite Hn. ring. }
  split; [split|].
  - intros (wc & am & E & _).
    destruct Hsteps as [(e & Ee & _)|H]; [congruence | exact H].
  - exact Hok.
  - intros e Ee. destruct Hsteps as [(e' & Ee' & He')|H].
    + rewrite Ee in Ee'. injection Ee' as <-. exact He'.
    + destruct (Hok H) as (wc & am & E & _). congruence.
Qed.

(** X5 on a query of batch 2 with 3 channels and a context of batch 3
    with 2 channels, which [func_attention] accepts. *)
Lemma X5_func_attention_returns_iff_witness :
  ((exists wc am, func_attention (zeros [2; 3; 5]) (zeros [3; 2; 2; 2]) 1%R = Ok (wc, am) /\
                  shape wc = [2; 3; 5] /\ shape am = [2; 5; 2; 2])
   <-> (0 < 2 /\ 0 < 2 /\ 0 < 2 /\ 3 * 2 = 2 * 3)) /\
  (forall e, func_attention (zeros [2; 3; 5]) (zeros [3; 2; 2; 2]) 1%R = Raise e ->
     e = RuntimeError "view" \/ e = RuntimeError "bmm").
Proof.
  apply (@X5_func_attention_returns_iff (zeros [2; 3; 5]) (zeros [3; 2; 2; 2]) 1%R
           2 3 5 3 2 2 2); reflexivity.
Defined.

(** X6.  [func_attention] raises [IndexError] on a query of rank below 3
    and, for a query of rank 3 or more, on a context of rank below 4. *)
Theorem X6_func_attention_rank_errors query context gamma1 :
  (length (shape query) < 3 -> func_attention query context gamma1 = Raise IndexError) /\
  (3 <= length (shape query) -> length (shape context) < 4 ->
   func_attention query context gamma1 = Raise IndexError).
Proof.
  unfold func_attention, func_attention_eq9, func_attention_eq8, size.
  destruct (shape query) as [|q0 [|q1 [|q2 sq]]]; cbn [length nth_error rbind];
    (split; [intros Hl | intros Hl Hc]); try reflexivity; try lia.
  destruct (shape context) as [|c0 [|c1 [|c2 [|c3 sc]]]]; cbn [length nth_error rbind] in *;
    try reflexivity; lia.
Qed.

(** ** forward: the mask *)

(** On well-shaped inputs the lines of [forward] before the mask do not
    raise, and what follows them is [mask_and_softmax] on a similarity
    that depends on the context projection only. *)
Lemma forward_eq2_prefix self input context B D C H W S :
  built D C self ->
  shape input = [B; D; H; W] -> shape context = [B; C; S] ->
  0 < B -> 0 < H -> 0 < W -> 0 < S ->
  exists ds x,
    length x = B * (H * W) * S /\
    forall self', conv_context self' = conv_context self ->
      forward_eq2 self' input context =
        rbind (mask_and_softmax self' (H * W) (mkT [B * (H * W); S] x))
          (fun attn =>
             Ok {| fw_idf := D; fw_ih := H; fw_iw := W; fw_queryL := H * W;
                   fw_batch_size := B; fw_sourceL := S;
                   fw_sourceT := mkT [B; D; S] ds; fw_attn := attn |}).
Proof.
  intros (Hci & Hco & _) Hin Hctx HB HH HW HS.
  destruct (@transpose12_shape R _ (mkT [B; D; H * W] (data input)) B D (H * W) eq_refl)
    as (dT & ET & _).
  destruct (@Conv2d_forward_shape (conv_context self) (mkT [B; C; S; 1] (data context))
              B C S 1 eq_refl (eq_sym Hci) HS Nat.lt_0_1) as (ds & Ec & _).
  rewrite Hco in Ec.
  destruct (@bmm_shape R _ (mkT [B; H * W; D] dT) (mkT [B; D; S] ds) B (H * W) D S
              eq_refl eq_refl) as (x & Eb & Lx).
  exists ds, x. split; [exact Lx|].
  intros self' Hconv. unfold forward_eq2, size. rewrite Hin, Hctx, Hconv.
  cbn [nth_error rbind].
  rewrite (@view_infer _ input _ (B * (H * W)) D);
    [ | reflexivity | cbn; lia | nia | rewrite Hin; cbn; nia ].
  cbn [rbind map resolve]. rewrite ET. cbn [rbind].
  unfold unsqueeze. rewrite Hctx. cbn [length Nat.leb firstn skipn app rbind].
  rewrite Ec. cbn [rbind]. unfold squeeze.
  cbn [shape data nth_error firstn skipn app rbind].
  rewrite Eb. cbn [rbind].
  rewrite view_exact; [ | reflexivity | cbn; nia ].
  cbn [rbind map resolve data]. unfold mask_and_softmax.
  destruct (mask self') as [m|]; cbn [rbind].
  - destruct (trepeat false m [H * W; 1]) as [mk|e]; cbn [rbind]; [|reflexivity].
    destruct (masked_fill _ mk NInf) as [y|e]; cbn [rbind]; reflexivity.
  - reflexivity.
Qed.

Lemma masked_fill_mismatch {A} `{Scalar A} (t : tensor A) (m : tensor bool) v r c r' c' :
  shape t = [r; c] -> shape m = [r'; c'] ->
  ~ ((r' = r \/ r' = 1) /\ (c' = c \/ c' = 1)) ->
  masked_fill t m v = Raise (RuntimeError "masked_fill_").
Proof.
  intros Ht Hm Hbad. unfold masked_fill, broadcast_shapes. rewrite Ht, Hm.
  cbn [length Nat.max pad_shape Nat.sub List.repeat app broadcast_aligned].
  destruct (Nat.eqb_spec c c') as [Ec|Ec];
    [|destruct (Nat.eqb_spec c 1) as [Ec1|Ec1];
      [|destruct (Nat.eqb_spec c' 1) as [Ec2|Ec2]; [|reflexivity]]];
  (destruct (Nat.eqb_spec r r') as [Er|Er];
    [|destruct (Nat.eqb_spec r 1) as [Er1|Er1];
      [|destruct (Nat.eqb_spec r' 1) as [Er2|Er2]; [|reflexivity]]]);
  match goal with
  | |- context [list_eq_dec ?d ?a ?b] =>
      destruct (list_eq_dec d a b) as [Eq|Eq]; [|reflexivity]
  end;
  exfalso; try (injection Eq; intros); apply Hbad; lia.
Qed.



(** X9.  A stored mask of rank 2 whose extents do not broadcast to the
    flattened similarity makes [forward] raise in [masked_fill_], before
    anything is printed: its number of rows must be the batch size (or 1
    when the input has one spatial position) and its number of columns
    the source length (or 1). *)
Theorem X9_misshapen_mask_raises (w : world) input sentence context m
    B D C H W S Bm Sm :
  built D C (this w) -> mask (this w) = Some m -> shape m = [Bm; Sm] ->
  shape input = [B; D; H; W] -> shape context = [B; C; S] ->
  0 < B -> 0 < H -> 0 < W -> 0 < S ->
  ~ ((Bm = B \/ (Bm = 1 /\ H * W = 1)) /\ (Sm = S \/ Sm = 1)) ->
  forward input sentence context w = (w, Raise (RuntimeError "masked_fill_")).
Proof.
  intros Hb Hm Hms Hin Hctx HB HH HW HS Hbad.
  destruct (forward_eq2_prefix input context Hb Hin Hctx HB HH HW HS)
    as (ds & x & _ & Pre).
  unfold forward, mbind, get_self, lift, forward_words.
  rewrite (Pre (this w) eq_refl). unfold mask_and_softmax. rewrite Hm.
  rewrite (trepeat_rows false m (H * W) Hms). cbn [rbind].
  rewrite (@masked_fill_mismatch ext _ _ _ NInf (B * (H * W)) S (H * W * Bm) Sm);
    [reflexivity | reflexivity | reflexivity |].
  intros ([E|E] & Hc); apply Hbad; (split; [|exact Hc]).
  - left. apply mul_cancel_pos with (k := H * W); [nia|]. lia.
  - right. apply Nat.eq_mul_1 in E. lia.
Qed.

Lemma X9_misshapen_mask_raises_witness :
  let w := {| this := masked_layer; stdout := [] |} in
  forward (zeros [3; 1; 2; 2]) (zeros [3; 100]) (zeros [3; 1; 2]) w
  = (w, Raise (RuntimeError "masked_fill_")).
Proof.
  intros w.
  apply (@X9_misshapen_mask_raises w (zeros [3; 1; 2; 2]) (zeros [3; 100])
           (zeros [3; 1; 2]) two_by_two_mask 3 1 1 2 2 2 2 2);
    [repeat split | reflexivity | reflexivity | reflexivity | reflexivity
    | lia | lia | lia | lia | lia].
Defined.

(** X10.  [forward] raises [IndexError], before anything is printed, on
    an input of rank below 4 and, for an input of rank 4 or more, on a
    context of rank below 3. *)
Theorem X10_forward_rank_errors (w : world) input sentence context :
  (length (shape input) < 4 ->
   forward input sentence context w = (w, Raise IndexError)) /\
  (4 <= length (shape input) -> length (shape context) < 3 ->
   forward input sentence context w = (w, Raise IndexError)).
Proof.
  unfold forward, mbind, get_self, lift, forward_words, forward_eq2, size.
  destruct (shape input) as [|i0 [|i1 [|i2 [|i3 si]]]]; cbn [length nth_error rbind];
    (split; [intros Hl | intros Hl Hc]); try reflexivity; try lia.
  destruct (shape context) as [|c0 [|c1 [|c2 sc]]]; cbn [length nth_error rbind] in *;
    try reflexivity; lia.
Qed.

(** ** forward: the sentence branch, entry by entry *)

Lemma tmul_same_data {A} `{Scalar A} (a b : tensor A) s :
  shape a = s -> shape b = s ->
  tmul a b =
    Ok (mkT s (tab (numel s) (fun i => smul (nth i (data a) szero) (nth i (data b) szero)))).
Proof.
  intros Ha Hb. unfold tmul. rewrite Ha, Hb, broadcast_shapes_same, pad_shape_same.
  f_equal. f_equal. apply tab_ext. intros i Hi. now rewrite wrap_unravel.
Qed.

(** [t.repeat(1, 1, h, w)] on a tensor [b x d x 1 x 1] copies each of its
    entries to the [h * w] positions of its channel. *)
Lemma trepeat_spatial {A} (v : A) (t : tensor A) b d h w :
  shape t = [b; d; 1; 1] ->
  exists dr, trepeat v t [1; 1; h; w] = Ok (mkT [b; d; h; w] dr) /\
    forall bi ci p, bi < b -> ci < d -> p < h * w ->
      nth (bi * d * (h * w) + ci * (h * w) + p) dr v = nth (bi * d + ci) (data t) v.
Proof.
  intros Hs. unfold trepeat. rewrite Hs.
  cbn [length Nat.ltb Nat.leb pad_shape Nat.sub List.repeat app zip_with].
  rewrite !Nat.mul_1_l, !Nat.mul_1_r. eexists. split; [reflexivity|].
  intros bi ci p Hbi Hci Hp. cbn [numel]. rewrite !Nat.mul_1_r.
  rewrite nth_tab.
  2:{ replace (b * (d * (h * w))) with (b * d * (h * w)) by lia. now apply flat3_lt. }
  f_equal. unfold wrap_index. cbn [unravel numel zip_with ravel].
  rewrite !Nat.mul_1_r, !Nat.mod_1_r.
  set (i := bi * d * (h * w) + ci * (h * w) + p).
  assert (E0 : i / (d * (h * w)) = bi) by (unfold i; now apply flat3_div).
  assert (E1 : i mod (d * (h * w)) = ci * (h * w) + p).
  { symmetry. apply (Nat.mod_unique _ _ bi); [now apply flat2_lt | unfold i; lia]. }
  rewrite E0, E1.
  replace ((ci * (h * w) + p) / (h * w)) with ci
    by (apply (Nat.div_unique _ _ _ p); lia).
  rewrite !Nat.mod_small by assumption. lia.
Qed.

(** The sentence branch of [forward] on a valid call: what it prints and
    what it computes from the projection of the sentence vector. *)
Lemma forward_sentence_spec (w : world) input sentence context B D C H W S :
  built D C (this w) -> mask_fits B S (this w) ->
  shape input = [B; D; H; W] -> shape sentence = [B; 100] ->
  shape context = [B; C; S] ->
  0 < B -> 0 < H -> 0 < W -> 0 < S ->
  exists dp o,
    Linear_forward (linear (this w)) sentence = Ok (mkT [B; D] dp) /\
    forward input sentence context w =
      ({| this := this w; stdout := stdout w ++ forward_log B D H W |}, Ok o) /\
    forall b c p, b < B -> c < D -> p < H * W ->
      nth (b * D * (H * W) + c * (H * W) + p) (data (weightedSentence o)) 0%R =
      (nth (b * D + c) dp 0
       * nth (b * D * (H * W) + c * (H * W) + p) (data (sent_att o)) 0)%R.
Proof.
  intros Hb Hmask Hin Hsent Hctx HB HH HW HS.
  destruct (forward_words_spec input context Hb Hmask Hin Hctx HB HH HW HS)
    as (l & dwc & dwa & _ & E & Hidf & Hih & Hiw & Hbs & _).
  destruct Hb as (_ & _ & Hvi & Hvo & Hli & Hlo & _).
  unfold forward, mbind, get_self, lift, print, mret. rewrite E.
  rewrite Hidf, Hih, Hiw, Hbs.
  assert (Hsent' : shape sentence = [B; in_features (linear (this w))])
    by now rewrite Hli.
  destruct (Linear_forward_shape (linear (this w)) sentence Hsent') as (dp & E1 & L1).
  rewrite Hlo in E1. exists dp. rewrite E1. cbn [shape].
  rewrite view_exact; [ | reflexivity | cbn; lia ].
  cbn [map resolve data shape].
  destruct (@trepeat_spatial R 0%R (mkT [B; D; 1; 1] dp) B D H W eq_refl)
    as (dr & E2 & Enr).
  rewrite E2. cbn [shape data] in *.
  rewrite (@tmul_same_data R _ input (mkT [B; D; H; W] dr) [B; D; H; W] Hin eq_refl).
  cbn [shape].
  destruct (@Conv2d_forward_shape (conv_sentence_vis (this w))
              (mkT [B; D; H; W]
                 (tab (numel [B; D; H; W])
                    (fun i => smul (nth i (data input) szero)
                                   (nth i (data (mkT [B; D; H; W] dr)) szero))))
              B D H W eq_refl (eq_sym Hvi) HH HW) as (d4 & E4 & L4).
  rewrite E4, Hvo. cbn [shape].
  destruct (@softmax_4d (mkT [B; D; H; W] d4) B D H W eq_refl) as (d5 & E5 & L5 & St).
  rewrite E5. cbn [shape].
  rewrite (@tmul_same_data R _ (mkT [B; D; H; W] dr) (mkT [B; D; H; W] d5) [B; D; H; W]
             eq_refl eq_refl).
  cbn [shape this stdout]. eexists. split; [reflexivity|]. split.
  - unfold forward_log. rewrite <- !app_assoc. reflexivity.
  - intros b c p Hb' Hc Hp. cbn [weightedSentence sent_att data numel].
    rewrite nth_tab.
    2:{ rewrite !Nat.mul_1_r.
        replace (B * (D * (H * W))) with (B * D * (H * W)) by lia. now apply flat3_lt. }
    cbn [smul szero R_scalar]. now rewrite Enr.
Qed.

(** X11.  On a valid call [forward] appends to standard output exactly
    eight lines: the seven sizes of the sentence branch, [B x D],
    [B x D x 1 x 1] and five times [B x D x H x W], and the closing
    text.  It leaves what was printed before in place. *)
Theorem X11_forward_prints_eight_lines (w : world) input sentence context B D C H W S :
  built D C (this w) -> mask_fits B S (this w) ->
  shape input = [B; D; H; W] -> shape sentence = [B; 100] ->
  shape context = [B; C; S] ->
  0 < B -> 0 < H -> 0 < W -> 0 < S ->
  exists o w',
    forward input sentence context w = (w', Ok o) /\
    stdout w' = stdout w ++ forward_log B D H W.
Proof.
  intros Hb Hmask Hin Hsent Hctx HB HH HW HS.
  destruct (forward_sentence_spec w input sentence context
              Hb Hmask Hin Hsent Hctx HB HH HW HS) as (dp & o & _ & E & _).
  exists o. eexists. split; [exact E|]. reflexivity.
Qed.

Lemma X11_forward_prints_eight_lines_witness :
  exists o w',
    forward (zeros [2; 4; 3; 3]) (zeros [2; 100]) (zeros [2; 6; 5])
      {| this := init 4 6 [] [] [] []; stdout := [TextLine "before"] |} = (w', Ok o) /\
    stdout w' = [TextLine "before"] ++ forward_log 2 4 3 3.
Proof.
  apply (@X11_forward_prints_eight_lines
           {| this := init 4 6 [] [] [] []; stdout := [TextLine "before"] |}
           (zeros [2; 4; 3; 3]) (zeros [2; 100]) (zeros [2; 6; 5]) 2 4 6 3 3 5);
    [repeat split | exact I | reflexivity | reflexivity | reflexivity
    | lia | lia | lia | lia].
Defined.

(** X12.  On a valid call [weightedSentence] is the gate applied to the
    projected sentence vector: its entry at batch element [b], channel
    [c] and any spatial position is entry [(b, c)] of
    [self.linear(sentence)] times the entry of [sent_att] at the same
    place. *)
Theorem X12_weighted_sentence_is_gated_projection
    (w : world) input sentence context B D C H W S :
  built D C (this w) -> mask_fits B S (this w) ->
  shape input = [B; D; H; W] -> shape sentence = [B; 100] ->
  shape context = [B; C; S] ->
  0 < B -> 0 < H -> 0 < W -> 0 < S ->
  exists proj o w',
    Linear_forward (linear (this w)) sentence = Ok proj /\
    shape proj = [B; D] /\
    forward input sentence context w = (w', Ok o) /\
    forall b c p, b < B -> c < D -> p < H * W ->
      nth (b * D * (H * W) + c * (H * W) + p) (data (weightedSentence o)) 0%R =
      (nth (b * D + c) (data proj) 0
       * nth (b * D * (H * W) + c * (H * W) + p) (data (sent_att o)) 0)%R.
Proof.
  intros Hb Hmask Hin Hsent Hctx HB HH HW HS.
  destruct (forward_sentence_spec w input sentence context
              Hb Hmask Hin Hsent Hctx HB HH HW HS) as (dp & o & Ep & E & En).
  exists (mkT [B; D] dp), o. eexists.
  split; [exact Ep|]. split; [reflexivity|]. split; [exact E|]. exact En.
Qed.

Lemma X12_weighted_sentence_is_gated_projection_witness :
  let w := {| this := init 4 6 [] [] [] []; stdout := [] |} in
  exists proj o w',
    Linear_forward (linear (this w)) (zeros [2; 100]) = Ok proj /\
    shape proj = [2; 4] /\
    forward (zeros [2; 4; 3; 3]) (zeros [2; 100]) (zeros [2; 6; 5]) w = (w', Ok o) /\
    forall b c p, b < 2 -> c < 4 -> p < 3 * 3 ->
      nth (b * 4 * (3 * 3) + c * (3 * 3) + p) (data (weightedSentence o)) 0%R =
      (nth (b * 4 + c) (data proj) 0
       * nth (b * 4 * (3 * 3) + c * (3 * 3) + p) (data (sent_att o)) 0)%R.
Proof.
  intros w.
  apply (@X12_weighted_sentence_is_gated_projection w
           (zeros [2; 4; 3; 3]) (zeros [2; 100]) (zeros [2; 6; 5]) 2 4 6 3 3 5);
    [repeat split | exact I | reflexivity | reflexivity | reflexivity
    | lia | lia | lia | lia].
Defined.

(** ** forward: the sentence gate *)

(** The sentence branch of [forward] on a valid call, operation by
    operation. *)
Lemma forward_gate_spec (w : world) input sentence context B D C H W S :
  built D C (this w) -> mask_fits B S (this w) ->
  shape input = [B; D; H; W] -> shape sentence = [B; 100] ->
  shape context = [B; C; S] ->
  0 < B -> 0 < H -> 0 < W -> 0 < S ->
  exists dp dr dg dgate dsa o w',
    Linear_forward (linear (this w)) sentence = Ok (mkT [B; D] dp) /\
    trepeat 0%R (mkT [B; D; 1; 1] dp) [1; 1; H; W] = Ok (mkT [B; D; H; W] dr) /\
    tmul input (mkT [B; D; H; W] dr) = Ok (mkT [B; D; H; W] dg) /\
    Conv2d_forward (conv_sentence_vis (this w)) (mkT [B; D; H; W] dg)
    = Ok (mkT [B; D; H; W] dgate) /\
    Softmax_forward nn_Softmax (mkT [B; D; H; W] dgate) = Ok (mkT [B; D; H; W] dsa) /\
    forward input sentence context w = (w', Ok o) /\
    sent_att o = mkT [B; D; H; W] dsa.
Proof.
  intros Hb Hmask Hin Hsent Hctx HB HH HW HS.
  destruct (forward_words_spec input context Hb Hmask Hin Hctx HB HH HW HS)
    as (l & dwc & dwa & _ & E & Hidf & Hih & Hiw & Hbs & _).
  destruct Hb as (_ & _ & Hvi & Hvo & Hli & Hlo & _).
  unfold forward, mbind, get_self, lift, print, mret. rewrite E.
  rewrite Hidf, Hih, Hiw, Hbs.
  assert (Hsent' : shape sentence = [B; in_features (linear (this w))])
    by now rewrite Hli.
  destruct (Linear_forward_shape (linear (this w)) sentence Hsent') as (dp & E1 & L1).
  rewrite Hlo in E1. exists dp. rewrite E1. cbn [shape].
  rewrite view_exact; [ | reflexivity | cbn; lia ].
  cbn [map resolve data shape].
  destruct (@trepeat_spatial R 0%R (mkT [B; D; 1; 1] dp) B D H W eq_refl)
    as (dr & E2 & _).
  exists dr. rewrite E2. cbn [shape data] in *.
  destruct (@tmul_same R _ input (mkT [B; D; H; W] dr) [B; D; H; W] Hin eq_refl)
    as (dg & E3 & _).
  exists dg. rewrite E3. cbn [shape].
  destruct (@Conv2d_forward_shape (conv_sentence_vis (this w)) (mkT [B; D; H; W] dg)
              B D H W eq_refl (eq_sym Hvi) HH HW) as (d4 & E4 & L4).
  rewrite Hvo in E4. exists d4. rewrite E4. cbn [shape].
  destruct (@softmax_4d (mkT [B; D; H; W] d4) B D H W eq_refl) as (d5 & E5 & _).
  exists d5. rewrite E5. cbn [shape].
  destruct (@tmul_same R _ (mkT [B; D; H; W] dr) (mkT [B; D; H; W] d5) [B; D; H; W]
              eq_refl eq_refl) as (d6 & E6 & _).
  rewrite E6. cbn [shape].
  eexists. eexists.
  repeat (split; [reflexivity|]). reflexivity.
Qed.

(** X16.  On a valid call [sent_att] is [nn.Softmax()] of the output of
    the gating convolution: [conv_sentence_vis] applied to the input
    multiplied, entry by entry, by the projected sentence vector repeated
    over the spatial positions.  On this rank-4 tensor the softmax runs
    along dimension 1, the channels, and treats each batch element and
    spatial position on its own: the [D] entries of [sent_att] there are
    what the softmax gives on the [D] gate values there alone. *)
Theorem X16_sentence_gate_is_channel_softmax
    (w : world) input sentence context B D C H W S :
  built D C (this w) -> mask_fits B S (this w) ->
  shape input = [B; D; H; W] -> shape sentence = [B; 100] ->
  shape context = [B; C; S] ->
  0 < B -> 0 < H -> 0 < W -> 0 < S ->
  exists proj rep gated gate o w',
    Linear_forward (linear (this w)) sentence = Ok proj /\
    trepeat 0%R (mkT [B; D; 1; 1] (data proj)) [1; 1; H; W] = Ok rep /\
    tmul input rep = Ok gated /\
    Conv2d_forward (conv_sentence_vis (this w)) gated = Ok gate /\
    shape gate = [B; D; H; W] /\
    forward input sentence context w = (w', Ok o) /\
    softmax_dim 1 gate = Ok (sent_att o) /\
    forall b p, b < B -> p < H * W ->
      Softmax_forward nn_Softmax (mkT [1; D] (channel_line (data gate) D (H * W) b p))
      = Ok (mkT [1; D] (channel_line (data (sent_att o)) D (H * W) b p)).
Proof.
  intros Hb Hmask Hin Hsent Hctx HB HH HW HS.
  destruct (forward_gate_spec w input sentence context Hb Hmask Hin Hsent Hctx HB HH HW HS)
    as (dp & dr & dg & dgate & dsa & o & w' & E1 & E2 & E3 & E4 & E5 & E & Ho).
  exists (mkT [B; D] dp), (mkT [B; D; H; W] dr), (mkT [B; D; H; W] dg),
         (mkT [B; D; H; W] dgate), o, w'.
  split; [exact E1|]. split; [exact E2|]. split; [exact E3|]. split; [exact E4|].
  split; [reflexivity|]. split; [exact E|]. rewrite Ho.
  assert (E5' : softmax_dim 1 (mkT [B; D; H; W] dgate) = Ok (mkT [B; D; H; W] dsa))
    by exact E5.
  split; [exact E5'|].
  intros b p Hb' Hp. unfold channel_line. cbn [data].
  pose proof (@softmax_linewise R _ (mkT [B; D; H; W] dgate) [B] D [H; W] dsa b p
                eq_refl E5') as L.
  cbn [numel] in L. rewrite !Nat.mul_1_r in L.
  apply L; assumption.
Qed.

(** X16 on the end-to-end example of the specification. *)
Lemma X16_sentence_gate_is_channel_softmax_witness :
  let w := {| this := init 4 6 [] [] [] []; stdout := [] |} in
  let input := zeros [2; 4; 3; 3] in
  exists proj rep gated gate o w',
    Linear_forward (linear (this w)) (zeros [2; 100]) = Ok proj /\
    trepeat 0%R (mkT [2; 4; 1; 1] (data proj)) [1; 1; 3; 3] = Ok rep /\
    tmul input rep = Ok gated /\
    Conv2d_forward (conv_sentence_vis (this w)) gated = Ok gate /\
    shape gate = [2; 4; 3; 3] /\
    forward input (zeros [2; 100]) (zeros [2; 6; 5]) w = (w', Ok o) /\
    softmax_dim 1 gate = Ok (sent_att o) /\
    forall b p, b < 2 -> p < 3 * 3 ->
      Softmax_forward nn_Softmax (mkT [1; 4] (channel_line (data gate) 4 (3 * 3) b p))
      = Ok (mkT [1; 4] (channel_line (data (sent_att o)) 4 (3 * 3) b p)).
Proof.
  intros w input.
  apply (@X16_sentence_gate_is_channel_softmax w input (zeros [2; 100]) (zeros [2; 6; 5])
           2 4 6 3 3 5);
    [repeat split | exact I | reflexivity | reflexivity | reflexivity
    | lia | lia | lia | lia].
Defined.

(** ** forward: a mask that masks nothing *)

Lemma mask_and_softmax_all_false self self0 m B S Q x :
  mask self = Some m -> mask self0 = None -> sm self = sm self0 ->
  shape m = [B; S] -> (forall i, nth i (data m) false = false) ->
  length x = B * Q * S ->
  mask_and_softmax self Q (mkT [B * Q; S] x) = mask_and_softmax self0 Q (mkT [B * Q; S] x).
Proof.
  intros Hm H0 Hsm Hs Hfalse Lx. unfold mask_and_softmax.
  rewrite Hm, H0, Hsm, (trepeat_rows false m Q Hs). cbn [rbind].
  rewrite (Nat.mul_comm Q B).
  erewrite masked_fill_same; [ | reflexivity | reflexivity ].
  cbn [rbind]. f_equal. unfold tmap. cbn [shape data]. f_equal.
  transitivity (tab (length (map Fin x)) (fun i => nth i (map Fin x) szero));
    [|apply tab_nth_all].
  rewrite length_map, Lx. cbn [numel]. rewrite Nat.mul_1_r.
  apply tab_ext. intros i Hi. rewrite nth_tab by assumption.
  now rewrite Hfalse.
Qed.

(** X13.  Storing a mask of the right shape with no position set is the
    same as clearing the mask: after either call of [applyMask],
    [forward] returns the same outputs, or raises the same exception. *)
Theorem X13_all_false_mask_is_no_mask (w : world) input sentence context m
    B D C H W S :
  built D C (this w) ->
  shape m = [B; S] -> (forall i, nth i (data m) false = false) ->
  shape input = [B; D; H; W] -> shape context = [B; C; S] ->
  0 < B -> 0 < H -> 0 < W -> 0 < S ->
  snd (forward input sentence context (fst (applyMask (Some m) w)))
  = snd (forward input sentence context (fst (applyMask None w))).
Proof.
  intros Hb Hs Hfalse Hin Hctx HB HH HW HS.
  destruct (forward_eq2_prefix input context Hb Hin Hctx HB HH HW HS)
    as (ds & x & Lx & Pre).
  set (w1 := fst (applyMask (Some m) w)). set (w0 := fst (applyMask None w)).
  assert (E2 : forward_eq2 (this w1) input context = forward_eq2 (this w0) input context).
  { rewrite (Pre (this w1) eq_refl), (Pre (this w0) eq_refl).
    f_equal. apply mask_and_softmax_all_false with (m := m) (B := B);
      try reflexivity; assumption. }
  assert (Ew : forward_words (this w1) input context
               = forward_words (this w0) input context).
  { unfold forward_words. now rewrite E2. }
  unfold forward, mbind, get_self, lift, print, mret. rewrite Ew.
  change (linear (this w1)) with (linear (this w0)).
  change (conv_sentence_vis (this w1)) with (conv_sentence_vis (this w0)).
  destruct (forward_words (this w0) input context) as [[[l wc] wa]|e];
    [|reflexivity].
  repeat match goal with
         | |- context [match ?r with Ok _ => _ | Raise _ => _ end] =>
             destruct r as [?|?]; [|reflexivity]
         end.
  reflexivity.
Qed.

Lemma X13_all_false_mask_is_no_mask_witness :
  let w := {| this := init 4 6 [] [] [] []; stdout := [] |} in
  let m := mkT [2; 5] (List.repeat false 10) in
  snd (forward (zeros [2; 4; 3; 3]) (zeros [2; 100]) (zeros [2; 6; 5])
         (fst (applyMask (Some m) w)))
  = snd (forward (zeros [2; 4; 3; 3]) (zeros [2; 100]) (zeros [2; 6; 5])
           (fst (applyMask None w))).
Proof.
  intros w m.
  apply (@X13_all_false_mask_is_no_mask w (zeros [2; 4; 3; 3]) (zeros [2; 100])
           (zeros [2; 6; 5]) m 2 4 6 3 3 5);
    [repeat split | reflexivity | | reflexivity | reflexivity | lia | lia | lia | lia].
  intros i. do 10 (destruct i as [|i]; [reflexivity|]). destruct i; reflexivity.
Defined.

(** ** func_attention: batch elements *)

(** X15.  [func_attention] treats the batch elements independently: two
    calls whose queries and contexts agree on batch element [b] return
    weighted contexts and attention maps that agree on batch element
    [b], whatever the other batch elements hold. *)
Theorem X15_func_attention_batch_independent
    query context query' context' gamma1 B D Q ih iw b :
  shape query = [B; D; Q] -> shape context = [B; D; ih; iw] ->
  shape query' = [B; D; Q] -> shape context' = [B; D; ih; iw] ->
  0 < B -> 0 < ih -> 0 < iw -> b < B ->
  let S := ih * iw in
  (forall k q, k < D -> q < Q ->
     nth (b * D * Q + k * Q + q) (data query) 0%R
     = nth (b * D * Q + k * Q + q) (data query') 0%R) ->
  (forall k s, k < D -> s < S ->
     nth (b * D * S + k * S + s) (data context) 0%R
     = nth (b * D * S + k * S + s) (data context') 0%R) ->
  exists wc am wc' am',
    func_attention query context gamma1 = Ok (wc, am) /\
    func_attention query' context' gamma1 = Ok (wc', am') /\
    (forall d q, d < D -> q < Q ->
       nth (b * D * Q + d * Q + q) (data wc) 0%R
       = nth (b * D * Q + d * Q + q) (data wc') 0%R) /\
    (forall q s, q < Q -> s < S ->
       nth ((b * Q + q) * S + s) (data am) 0%R
       = nth ((b * Q + q) * S + s) (data am') 0%R).
Proof.
  intros Hq Hc Hq' Hc' HB Hih Hiw Hb S Hqe Hce.
  destruct (func_attention_entries query context gamma1 Hq Hc HB Hih Hiw)
    as (d8 & d9 & dwc & _ & _ & E & En8 & En9 & Enw & _ & _).
  destruct (func_attention_entries query' context' gamma1 Hq' Hc' HB Hih Hiw)
    as (d8' & d9' & dwc' & _ & _ & E' & En8' & En9' & Enw' & _ & _).
  fold S in En8, En9, Enw, En8', En9', Enw'.
  assert (Hsim : forall s q, s < S -> q < Q ->
            similarity query context D Q S b s q = similarity query' context' D Q S b s q).
  { intros s q Hs Hq0. unfold similarity. apply ssum_tab_ext. intros k Hk.
    now rewrite Hqe, Hce. }
  assert (H8 : forall s q, s < S -> q < Q ->
            nth ((b * S + s) * Q + q) d8 0%R = nth ((b * S + s) * Q + q) d8' 0%R).
  { intros s q Hs Hq0. rewrite En8, En8' by assumption.
    rewrite Hsim by assumption. f_equal.
    apply ssum_tab_ext. intros q1 Hq1. now rewrite Hsim. }
  assert (H9 : forall q s, q < Q -> s < S ->
            nth ((b * Q + q) * S + s) d9 0%R = nth ((b * Q + q) * S + s) d9' 0%R).
  { intros q s Hq0 Hs. rewrite En9, En9' by assumption.
    rewrite H8 by assumption. f_equal.
    apply ssum_tab_ext. intros s1 Hs1. now rewrite H8. }
  eexists. eexists. eexists. eexists.
  split; [exact E|]. split; [exact E'|]. cbn [data]. split; [|exact H9].
  intros d q Hd Hq0. rewrite Enw, Enw' by assumption.
  apply ssum_tab_ext. intros s Hs. now rewrite Hce, H9.
Qed.

Lemma X15_func_attention_batch_independent_witness :
  let S := 1 * 2 in
  let query := mkT [2; 1; 1] [1%R; 2%R] in
  let query' := mkT [2; 1; 1] [1%R; 3%R] in
  let context := mkT [2; 1; 1; 2] [1%R; 2%R; 3%R; 4%R] in
  let context' := mkT [2; 1; 1; 2] [1%R; 2%R; 5%R; 6%R] in
  exists wc am wc' am',
    func_attention query context 1%R = Ok (wc, am) /\
    func_attention query' context' 1%R = Ok (wc', am') /\
    (forall d q, d < 1 -> q < 1 ->
       nth (0 * 1 * 1 + d * 1 + q) (data wc) 0%R
       = nth (0 * 1 * 1 + d * 1 + q) (data wc') 0%R) /\
    (forall q s, q < 1 -> s < S ->
       nth ((0 * 1 + q) * S + s) (data am) 0%R
       = nth ((0 * 1 + q) * S + s) (data am') 0%R).
Proof.
  intros S query query' context context'.
  apply (@X15_func_attention_batch_independent query context query' context' 1%R
           2 1 1 1 2 0);
    [reflexivity | reflexivity | reflexivity | reflexivity | lia | lia | lia | lia | |].
  - intros k q Hk Hq. destruct k; [|lia]. destruct q; [reflexivity | lia].
  - intros k s Hk Hs. destruct k; [|lia].
    destruct s as [|[|s]]; [reflexivity | reflexivity | cbn in Hs; lia].
Defined.
